(** * dapps-list-backend: caching providers, dApp listing, notifications

    A shallow embedding of the parts of the backend that carry logic:

    - [JsNumber]: JavaScript numbers as IEEE 754 binary64 values, with the
      operators and [Math] functions the code applies to them;
    - [JsDate]: the ECMAScript [Date] operations used by the code
      ([new Date(ms)], [getMonth], [setMonth], [getTime]);
    - [Bcd]: [getDApps] (slug de-duplication) and the monthly-active-user
      estimate computed inside [getDAppDetails];
    - [Notifications]: [getNotifications] over the Redis list;
    - [Provider]: the keyed single-flight data provider ([DataProvider] /
      [SingleQueryDataProvider]) as a transition system;
    - [AliceBob]: the string [getAliceBobSignature] signs;
    - [AdProviders]: [transformAdProviderSelectorsRules] and its Set;
    - [BcdEarlier]: the estimate as the earlier revision of
      [getDAppDetails] computes it.

    Timestamps and counts enter as the integers the JSON answers hold; the
    arithmetic of the estimate is done on their binary64 values, as the
    runtime does it.  Time values of [Date] objects are integers below
    2^53 and are handled exactly. *)

From Stdlib Require Import ZArith QArith Qround Lia String List.
From Stdlib Require Import Floats.SpecFloat.
From stdpp Require Import gmap strings list.
From stdpp Require Import sorting.
From Stdlib Require Import Ascii DecimalString.

Open Scope Z_scope.

(* ===================================================================== *)
(** ** JavaScript numbers *)
(* ===================================================================== *)

Module JsNumber.

(** A Number is a binary64 floating-point value. *)
Definition Number : Type := spec_float.

Definition prec : Z := 53.
Definition emax : Z := 1024.

Definition NaN : Number := S754_nan.

(** The Number nearest to an integer (ties to even): what an integer
    literal of a JSON text or of the program denotes. *)
Definition ofZ (z : Z) : Number := binary_normalize prec emax z 0 false.

(** The operators [+], [-], [*], [/] and [<] on Numbers. *)
Definition add (x y : Number) : Number := SFadd prec emax x y.
Definition sub (x y : Number) : Number := SFsub prec emax x y.
Definition mul (x y : Number) : Number := SFmul prec emax x y.
Definition div (x y : Number) : Number := SFdiv prec emax x y.
Definition lt (x y : Number) : bool := SFltb x y.

(** The mantissa [ofZ] gives a positive integer of at most 53 binary
    digits: the integer shifted left to 53 digits. *)
Definition mant53 (p : positive) : positive :=
  Z.to_pos (Zpos p * 2 ^ (53 - Zpos (digits2_pos p))).

(** [Math.round]: the nearest integer, ties towards +infinity; NaN,
    infinities, zeros and integers are returned as they are, and a result
    of zero keeps the sign of the argument. *)
Definition Math_round (x : Number) : Number :=
  match x with
  | S754_finite s m e =>
      if 0 <=? e then x
      else
        let d := 2 ^ (- e) in
        let n := (2 * cond_Zopp s (Zpos m) + d) / (2 * d) in
        if n =? 0 then S754_zero s else ofZ n
  | _ => x
  end.

(** [Math.max] on two arguments: NaN if either is NaN; +0 is above -0. *)
Definition Math_max (x y : Number) : Number :=
  match x, y with
  | S754_nan, _ | _, S754_nan => S754_nan
  | S754_zero sx, S754_zero sy => S754_zero (sx && sy)
  | _, _ => if lt x y then y else x
  end.

End JsNumber.

(** The values [estimatedUsersPerMonth] can hold. *)
Inductive JsValue : Type :=
| Undefined
| Num (x : JsNumber.Number).

(** [arr.slice(-2)]: the last two elements (all of them when shorter). *)
Definition slice_neg2 {A : Type} (arr : list A) : list A :=
  drop (length arr - 2)%nat arr.

(* ===================================================================== *)
(** ** ECMAScript Date arithmetic *)
(* ===================================================================== *)

Module JsDate.

(** A Date object holds a time value: milliseconds since the epoch, or
    NaN for an invalid date ([None]). *)
Definition DateObj := option Z.

Definition msPerDay : Z := 86400000.
Definition maxTime : Z := 8640000000000000.

Definition Day (t : Z) : Z := t / msPerDay.
Definition TimeWithinDay (t : Z) : Z := t mod msPerDay.

(** TimeClip: a time value outside +-8.64e15 ms is NaN. *)
Definition TimeClip (t : Z) : DateObj :=
  if Z.abs t <=? maxTime then Some t else None.

(** Proleptic Gregorian calendar, by 400-year eras starting on 1 March.
    [civil d] is (year, month index 0..11, day of month 1..31) of the
    day number [d] counted from 1970-01-01. *)
Definition civil (d : Z) : Z * Z * Z :=
  let z := d + 719468 in
  let era := z / 146097 in
  let doe := z - era * 146097 in
  let yoe := (doe - doe / 1460 + doe / 36524 - doe / 146096) / 365 in
  let doy := doe - (365 * yoe + yoe / 4 - yoe / 100) in
  let mp := (5 * doy + 2) / 153 in
  let dom := doy - (153 * mp + 2) / 5 + 1 in
  let m := if mp <? 10 then mp + 2 else mp - 10 in
  let y := yoe + era * 400 + (if m <=? 1 then 1 else 0) in
  (y, m, dom).

(** Day number of the first day of month [m] (0..11) of year [y]. *)
Definition dayOfMonthStart (y m : Z) : Z :=
  let y' := if m <=? 1 then y - 1 else y in
  let era := y' / 400 in
  let yoe := y' - era * 400 in
  let mp := if 1 <? m then m - 2 else m + 10 in
  let doy := (153 * mp + 2) / 5 in
  let doe := yoe * 365 + yoe / 4 - yoe / 100 + doy in
  era * 146097 + doe - 719468.

Definition YearFromTime (t : Z) : Z := fst (fst (civil (Day t))).
Definition MonthFromTime (t : Z) : Z := snd (fst (civil (Day t))).
Definition DateFromTime (t : Z) : Z := snd (civil (Day t)).

(** MakeDay(year, month, date): the month may lie outside 0..11 and the
    date outside the month; both carry over. *)
Definition MakeDay (year month date : Z) : Z :=
  let ym := year + month / 12 in
  let mn := month mod 12 in
  dayOfMonthStart ym mn + date - 1.

Definition MakeDate (day time : Z) : Z := day * msPerDay + time.

Section LocalTime.
(** [LocalTZA t isUTC]: offset of the host's time zone in ms, as in
    ECMA-262; it belongs to the host, not to the program. *)
Variable LocalTZA : Z -> bool -> Z.

Definition LocalTime (t : Z) : Z := t + LocalTZA t true.
Definition UTC (t : Z) : Z := t - LocalTZA t false.

(** [new Date(value)] for a numeric value. *)
Definition newDate (value : Z) : DateObj := TimeClip value.

(** [d.getTime()]: NaN for an invalid date. *)
Definition getTime (d : DateObj) : JsNumber.Number :=
  match d with
  | Some t => JsNumber.ofZ t
  | None => JsNumber.NaN
  end.

(** [d.getMonth()] *)
Definition getMonth (d : DateObj) : option Z :=
  match d with
  | Some t => Some (MonthFromTime (LocalTime t))
  | None => None
  end.

(** [d.setMonth(month)]: the Date object after the call. *)
Definition setMonth (d : DateObj) (month : option Z) : DateObj :=
  match d, month with
  | Some t0, Some m =>
      let t := LocalTime t0 in
      let nd := MakeDate (MakeDay (YearFromTime t) m (DateFromTime t))
                         (TimeWithinDay t) in
      TimeClip (UTC nd)
  | _, _ => None
  end.
End LocalTime.

End JsDate.

(* ===================================================================== *)
(** ** Better Call Dev queries: dApp list and dApp details *)
(* ===================================================================== *)

Module Bcd.

(** An element of the [/stats/mainnet/series] answer: [[timestamp, count]].
    The count of a sparse point may be absent ([undefined]). *)
Record SeriesPoint : Type := mkPoint {
  timestamp : Z;
  count : option Z
}.

Record DAppsListItem : Type := mkDApp {
  name : string;
  slug : string;
  website : string;
  categories : list string;
  soon : bool
}.

Record Contract : Type := mkContract {
  network : string;
  address : string
}.

Record DAppDetails : Type := mkDetails {
  item : DAppsListItem;
  contracts : option (list Contract)
}.

(** [const customDApps: DAppsListItem[] = [];] *)
Definition customDApps : list DAppsListItem := [].

(** [const customDAppsWithDetails: DAppDetails[] = [];] *)
Definition customDAppsWithDetails : list DAppDetails := [].

(** [arr.some(({ slug }) => slug === s)] *)
Definition someSlug (s : string) (arr : list DAppsListItem) : bool :=
  existsb (fun d => String.eqb (slug d) s) arr.

(** The reducer of [getDApps]: push [dApp] unless its slug was seen. *)
Definition pushUnique (uniqueDApps : list DAppsListItem) (dApp : DAppsListItem)
  : list DAppsListItem :=
  if negb (someSlug (slug dApp) uniqueDApps)
  then uniqueDApps ++ [dApp]
  else uniqueDApps.

(** [bcdDApps.reduce(..., [])] *)
Definition uniqueBcdDApps (bcdDApps : list DAppsListItem)
  : list DAppsListItem :=
  fold_left pushUnique bcdDApps [].

(** The body of [getDApps] after [await getBcdDApps({})], with the list of
    custom dApps as an argument. *)
Definition getDAppsWith (custom bcdDApps : list DAppsListItem)
  : list DAppsListItem :=
  uniqueBcdDApps bcdDApps
  ++ List.filter (fun c => negb (someSlug (slug c) bcdDApps)) custom.

Definition getDApps (bcdDApps : list DAppsListItem) : list DAppsListItem :=
  getDAppsWith customDApps bcdDApps.

(** [7 * 24 * 3600 * 1000] *)
Definition oneWeekMs : JsNumber.Number := JsNumber.ofZ 604800000.

(** Reading element 1 of a point: [undefined] when it is absent. *)
Definition readCount (p : SeriesPoint) : JsValue :=
  match count p with
  | Some c => Num (JsNumber.ofZ c)
  | None => Undefined
  end.

(** Destructuring element 1 of a point with the default [= 0]. *)
Definition countOr0 (p : SeriesPoint) : JsNumber.Number :=
  JsNumber.ofZ (default 0 (count p)).

Section Estimate.
Variable LocalTZA : Z -> bool -> Z.

(** [d = new Date(t); d.setMonth(d.getMonth() + 1)]: the Date object [d]. *)
Definition nextMonthDateOf (t : Z) : JsDate.DateObj :=
  let nextMonthDate := JsDate.newDate t in
  JsDate.setMonth LocalTZA nextMonthDate
    (option_map (Z.add 1) (JsDate.getMonth LocalTZA nextMonthDate)).

(** The computation of [estimatedUsersPerMonth] in [getDAppDetails], from
    the fetched [series] and [Date.now()]. *)
Definition estimatedUsersPerMonth (nowTimestamp : Z)
           (series : list SeriesPoint) : JsValue :=
  let lastSeries := slice_neg2 series in
  match lastSeries with
  | [p] => readCount p                      (* lastSeries[0][1] *)
  | prev :: cur :: _ =>
      (* [[, prevMonthUsers = 0], [currentMonthTimestamp, currentMonthUsers = 0]] *)
      let prevMonthUsers := countOr0 prev in
      let currentMonthTimestamp := JsNumber.ofZ (timestamp cur) in
      let currentMonthUsers := countOr0 cur in
      let currentMonthPartMs :=
        JsNumber.sub (JsNumber.ofZ nowTimestamp) currentMonthTimestamp in
      if JsNumber.lt currentMonthPartMs oneWeekMs then Num prevMonthUsers
      else
        let nextMonthDate := nextMonthDateOf (timestamp cur) in
        let currentMonthUsersEstimation :=
          JsNumber.Math_round
            (JsNumber.mul
               (JsNumber.div
                  (JsNumber.sub (JsDate.getTime nextMonthDate) currentMonthTimestamp)
                  currentMonthPartMs)
               currentMonthUsers) in
        Num (JsNumber.Math_max
               (JsNumber.Math_round
                  (JsNumber.div
                     (JsNumber.add prevMonthUsers currentMonthUsersEstimation)
                     (JsNumber.ofZ 2)))
               currentMonthUsers)
  | [] => Num (JsNumber.ofZ 0)
  end.

(** [getDAppDetails] after its awaits: [fetchDetails] is the answer of
    the details query for a slug and [getSeries] the stats query. *)
Definition getDAppDetails (fetchDetails : string -> DAppDetails)
           (getSeries : list string -> list SeriesPoint)
           (nowTimestamp : Z) (slug0 : string) : DAppDetails * JsValue :=
  let customDAppDetails :=
    List.find (fun d => String.eqb (slug (item d)) slug0)
              customDAppsWithDetails in
  let detailsWithoutSeries :=
    match customDAppDetails with
    | Some d => d
    | None => fetchDetails slug0
    end in
  match contracts detailsWithoutSeries with
  | None => (detailsWithoutSeries, Num (JsNumber.ofZ 0))
  | Some cs =>
      let series :=
        getSeries
          (map address
             (List.filter (fun c => String.eqb (network c) "mainnet") cs)) in
      (detailsWithoutSeries, estimatedUsersPerMonth nowTimestamp series)
  end.
End Estimate.

(** *** The estimate as the specification words it

    max(round((prevCount + projected) / 2), curCount) with
    projected = round(curCount * (nextMonthDate - curTimestamp) / elapsed),
    first in exact arithmetic, then on Numbers with the operands in that
    order. *)
Definition roundExact (q : Q) : Z := Qfloor (q + (1 # 2))%Q.

Definition specEstimateExact (prevCount curCount curTimestamp nextMonthDate now : Z)
  : Z :=
  let elapsedIntoCurrentMonth := now - curTimestamp in
  let projected :=
    roundExact (inject_Z curCount * inject_Z (nextMonthDate - curTimestamp)
                / inject_Z elapsedIntoCurrentMonth)%Q in
  Z.max (roundExact (inject_Z (prevCount + projected) / inject_Z 2)%Q) curCount.

Definition specEstimateNumber (prevCount curCount curTimestamp nextMonthDate now : Z)
  : JsNumber.Number :=
  let elapsedIntoCurrentMonth :=
    JsNumber.sub (JsNumber.ofZ now) (JsNumber.ofZ curTimestamp) in
  let projected :=
    JsNumber.Math_round
      (JsNumber.div
         (JsNumber.mul (JsNumber.ofZ curCount)
                       (JsNumber.sub (JsNumber.ofZ nextMonthDate)
                                     (JsNumber.ofZ curTimestamp)))
         elapsedIntoCurrentMonth) in
  JsNumber.Math_max
    (JsNumber.Math_round
       (JsNumber.div (JsNumber.add (JsNumber.ofZ prevCount) projected)
                     (JsNumber.ofZ 2)))
    (JsNumber.ofZ curCount).

End Bcd.

(* ===================================================================== *)
(** ** Notifications stored in Redis *)
(* ===================================================================== *)

Module Notifications.

Inductive PlatformType : Type := Mobile | Extension.

Inductive NotificationType : Type := News | PlatformUpdate | SecurityNote.

Record Notification : Type := mkNotification {
  id : Z;
  createdAt : string;
  type : NotificationType;
  platforms : list PlatformType;
  language : string;
  title : string;
  description : string;
  isMandatory : option bool;
  expirationDate : option string
}.

Definition PlatformType_eqb (a b : PlatformType) : bool :=
  match a, b with
  | Mobile, Mobile | Extension, Extension => true
  | _, _ => false
  end.

(** [platforms.includes(platform)] *)
Definition includes (ps : list PlatformType) (platform : PlatformType) : bool :=
  existsb (PlatformType_eqb platform) ps.

(** Modelled from the spec: [isNonEmptyString] of [utils/helpers], which is
    not among the sources; it holds of a value that is a string of
    length other than zero. *)
Definition isNonEmptyString (v : option string) : bool :=
  match v with
  | Some s => negb (String.length s =? 0)%nat
  | None => false
  end.

(** [LREM key 1 value]: delete the first element equal to [value],
    scanning from the head. *)
Fixpoint lrem1 (value : string) (l : list string) : list string :=
  match l with
  | [] => []
  | x :: xs => if String.eqb x value then xs else x :: lrem1 value xs
  end.

Section GetNotifications.
(** The runtime's [JSON.parse] (a [SyntaxError] is [None]) and
    [JSON.stringify], restricted to notifications, and
    [new Date(s).getTime()] on a string ([None] is NaN). *)
Variable JSON_parse : string -> option Notification.
Variable JSON_stringify : Notification -> string.
Variable Date_getTime : string -> option Z.

(** [(a, b) => new Date(b.createdAt).getTime() - new Date(a.createdAt).getTime()];
    a NaN result counts as +0 for [sort]. *)
Definition compareFn (a b : Notification) : Z :=
  match Date_getTime (createdAt b), Date_getTime (createdAt a) with
  | Some tb, Some ta => tb - ta
  | _, _ => 0
  end.

(** [Array.prototype.sort] is stable: an element goes before the first
    one it does not compare greater than. *)
Fixpoint insertSorted (x : Notification) (l : list Notification)
  : list Notification :=
  match l with
  | [] => [x]
  | y :: ys => if compareFn x y <=? 0 then x :: y :: ys
               else y :: insertSorted x ys
  end.

Definition sort (l : list Notification) : list Notification :=
  fold_right insertSorted [] l.

(** [x < now] where [x] may be NaN. *)
Definition ltNow (x : option Z) (now : Z) : bool :=
  match x with
  | Some t => t <? now
  | None => false
  end.

(** The test guarding [lrem]: the notification has expired. *)
Definition expired (now : Z) (n : Notification) : bool :=
  isNonEmptyString (expirationDate n)
  && match expirationDate n with
     | Some s => ltNow (Date_getTime s) now
     | None => false
     end.

(** The test guarding [result.push]. *)
Definition wanted (platform : PlatformType) (startFromTime now : Z)
           (n : Notification) : bool :=
  let createdAtTimestamp := Date_getTime (createdAt n) in
  includes (platforms n) platform
  && (match isMandatory n with Some true => true | _ => false end
      || (match createdAtTimestamp with
          | Some t => (startFromTime <? t) && (t <? now)
          | None => false
          end)).

(** One iteration of the loop; the state is the Redis list and
    [result]. *)
Definition loopBody (platform : PlatformType) (startFromTime now : Z)
           (st : list string * list Notification) (n : Notification)
  : list string * list Notification :=
  let '(redis, result) := st in
  if expired now n then (lrem1 (JSON_stringify n) redis, result)
  else if wanted platform startFromTime now n then (redis, result ++ [n])
  else (redis, result).

(** The Redis list after the [lrem] calls for [ns], in order. *)
Definition afterRemovals (ns : list Notification) (redis : list string)
  : list string :=
  fold_left (fun r n => lrem1 (JSON_stringify n) r) ns redis.

(** [data.map(item => JSON.parse(item))]: the first failure throws. *)
Fixpoint parseAll (data : list string) : option (list Notification) :=
  match data with
  | [] => Some []
  | item :: rest =>
      match JSON_parse item with
      | None => None
      | Some n =>
          match parseAll rest with
          | None => None
          | Some ns => Some (n :: ns)
          end
      end
  end.

(** [getNotifications client platform startFromTime] run on the Redis
    list [redis] at time [now]: the returned array and the list left in
    Redis, or [None] when [JSON.parse] throws. *)
Definition getNotifications (redis : list string) (now : Z)
           (platform : PlatformType) (startFromTime : Z)
  : option (list Notification * list string) :=
  let data := redis in
  match parseAll data with
  | None => None
  | Some parsed =>
      let notifications := sort parsed in
      let '(redis', result) :=
        fold_left (loopBody platform startFromTime now) notifications
                  (redis, []) in
      Some (result, redis')
  end.
End GetNotifications.

End Notifications.

(* ===================================================================== *)
(** ** The keyed single-flight data provider *)
(* ===================================================================== *)

Module Provider.

(** A pending [getState] call, named by the request that made it. *)
Definition Caller := nat.

(** The name of one call of the underlying fetch function. *)
Definition FetchId := nat.

Section Model.
(** [K]: the cache key (the argument tuple; [unit] for the single-value
    provider); [T]: the payload; [E]: the error of a rejected fetch. *)
Context {K : Type} `{Countable K} {T E : Type}.

Record CacheEntry : Type := mkEntry {
  value : T;
  fetchedAt : Z
}.

(** The pending fetch of a key and the callers awaiting it. *)
Record InFlightFetch : Type := mkInFlight {
  fetchId : FetchId;
  awaiting : list Caller
}.

Record ProviderState : Type := mkState {
  entry : option CacheEntry;
  inFlight : option InFlightFetch
}.

(** What [getState] resolves to: [{ data }] or [{ error }]. *)
Inductive Result : Type :=
| Data (d : T)
| Error (e : E).

Inductive Effect : Type :=
| Fetch (i : FetchId) (k : K)        (* the fetch function is called *)
| Return (c : Caller) (r : Result).  (* a [getState] call resolves *)

Record DataProvider : Type := mkProvider {
  refreshInterval : Z;
  states : gmap K ProviderState
}.

Definition emptyState : ProviderState :=
  {| entry := None; inFlight := None |}.

(** The state of a key is created lazily. *)
Definition stateOf (p : DataProvider) (k : K) : ProviderState :=
  default emptyState (states p !! k).

Definition setState (p : DataProvider) (k : K) (st : ProviderState)
  : DataProvider :=
  {| refreshInterval := refreshInterval p;
     states := <[k := st]> (states p) |}.

(** Modelled from the spec: [getState] of [DataProvider] and
    [SingleQueryDataProvider], whose sources are missing, after the
    cases of section 4.1.  [i] is the name the fetch call gets if one is
    made. *)
Definition getState (p : DataProvider) (now : Z) (i : FetchId)
           (c : Caller) (k : K) : DataProvider * list Effect :=
  let st := stateOf p k in
  match entry st, inFlight st with
  | None, None =>
      (* start a fetch, store it as the in-flight fetch, await it *)
      (setState p k {| entry := None;
                       inFlight := Some {| fetchId := i; awaiting := [c] |} |},
       [Fetch i k])
  | None, Some f =>
      (* a fetch is outstanding: await that same fetch *)
      (setState p k {| entry := None;
                       inFlight := Some {| fetchId := fetchId f;
                                           awaiting := awaiting f ++ [c] |} |},
       [])
  | Some e, fl =>
      if now - fetchedAt e <? refreshInterval p
      then (p, [Return c (Data (value e))])
      else
        match fl with
        | Some f =>
            (setState p k {| entry := Some e;
                             inFlight := Some {| fetchId := fetchId f;
                                                 awaiting := awaiting f ++ [c] |} |},
             [])
        | None =>
            (* trigger one refresh, still return the stale value *)
            (setState p k {| entry := Some e;
                             inFlight := Some {| fetchId := i; awaiting := [] |} |},
             [Fetch i k; Return c (Data (value e))])
        end
  end.

(** Modelled from the spec: what the provider does when the fetch for
    [k] settles (sections 3 and 4.1): the in-flight record is cleared
    whatever the outcome, a success replaces the entry and stamps it with
    [now], and every awaiting caller gets the outcome. *)
Definition settle (p : DataProvider) (now : Z) (k : K) (outcome : T + E)
  : DataProvider * list Effect :=
  let st := stateOf p k in
  let waiters :=
    match inFlight st with
    | Some f => awaiting f
    | None => []
    end in
  match outcome with
  | inl v =>
      (setState p k {| entry := Some {| value := v; fetchedAt := now |};
                       inFlight := None |},
       map (fun c => Return c (Data v)) waiters)
  | inr err =>
      (setState p k {| entry := entry st; inFlight := None |},
       map (fun c => Return c (Error err)) waiters)
  end.

(** *** The provider in its environment

    The environment holds the clock and the fetch calls that were made
    and have not settled yet; [settled] records how each finished fetch
    ended ([true]: resolved). *)
Record World : Type := mkWorld {
  provider : DataProvider;
  clock : Z;
  pending : list (FetchId * K);
  nextId : FetchId;
  settled : list (FetchId * K * bool)
}.

Inductive Event : Type :=
| Call (c : Caller) (k : K)         (* a handler calls getState(k) *)
| Resolve (i : FetchId) (v : T)     (* fetch [i] resolves with [v] *)
| Reject (i : FetchId) (err : E)    (* fetch [i] rejects with [err] *)
| Tick (d : N).                     (* [d] milliseconds pass *)

Definition init (interval : Z) : World :=
  {| provider := {| refreshInterval := interval; states := ∅ |};
     clock := 0;
     pending := [];
     nextId := 0%nat;
     settled := [] |}.

(** The fetch calls among some effects, as pending calls. *)
Fixpoint fetchesOf (effs : list Effect) : list (FetchId * K) :=
  match effs with
  | [] => []
  | Fetch i k :: rest => (i, k) :: fetchesOf rest
  | Return _ _ :: rest => fetchesOf rest
  end.

(** The key of the pending fetch [i], if there is one. *)
Fixpoint keyOf (i : FetchId) (l : list (FetchId * K)) : option K :=
  match l with
  | [] => None
  | (j, k) :: rest => if Nat.eqb i j then Some k else keyOf i rest
  end.

Definition removeId (i : FetchId) (l : list (FetchId * K))
  : list (FetchId * K) :=
  List.filter (fun p => negb (Nat.eqb i (fst p))) l.

Definition settleWorld (w : World) (i : FetchId) (outcome : T + E)
  : World * list Effect :=
  match keyOf i (pending w) with
  | None => (w, [])
  | Some k =>
      let '(p', effs) := settle (provider w) (clock w) k outcome in
      ({| provider := p';
          clock := clock w;
          pending := removeId i (pending w);
          nextId := nextId w;
          settled := settled w
                     ++ [(i, k, match outcome with inl _ => true | inr _ => false end)] |},
       effs)
  end.

Definition step (w : World) (ev : Event) : World * list Effect :=
  match ev with
  | Call c k =>
      let '(p', effs) := getState (provider w) (clock w) (nextId w) c k in
      let started := fetchesOf effs in
      ({| provider := p';
          clock := clock w;
          pending := pending w ++ started;
          nextId := (nextId w + length started)%nat;
          settled := settled w |},
       effs)
  | Resolve i v => settleWorld w i (inl v)
  | Reject i err => settleWorld w i (inr err)
  | Tick d =>
      ({| provider := provider w;
          clock := clock w + Z.of_N d;
          pending := pending w;
          nextId := nextId w;
          settled := settled w |},
       [])
  end.

(** Run a sequence of events, collecting the effects in order. *)
Fixpoint run (w : World) (evs : list Event) : World * list Effect :=
  match evs with
  | [] => (w, [])
  | ev :: rest =>
      let '(w1, effs1) := step w ev in
      let '(w2, effs2) := run w1 rest in
      (w2, effs1 ++ effs2)
  end.

(** The fetch calls for key [k] that are outstanding. *)
Definition outstanding (w : World) (k : K) : list (FetchId * K) :=
  List.filter (fun p => bool_decide (snd p = k)) (pending w).

(** Some fetch for [k] has resolved. *)
Definition everSucceeded (w : World) (k : K) : bool :=
  existsb (fun r => bool_decide (snd (fst r) = k) && snd r) (settled w).


(** The fetch call the in-flight record of [k] stands for. *)
Definition inFlightCalls (w : World) (k : K) : list (FetchId * K) :=
  match inFlight (stateOf (provider w) k) with
  | Some f => [(fetchId f, k)]
  | None => []
  end.

(** What holds of every world reached from [init interval]. *)
Record Inv (interval : Z) (w : World) : Prop := mkInv {
  inv_interval : refreshInterval (provider w) = interval;
  inv_outstanding : forall k, outstanding w k = inFlightCalls w k;
  inv_ids : NoDup (map fst (pending w));
  inv_fresh_ids : forall i k, (i, k) ∈ pending w -> (i < nextId w)%nat;
  inv_stale : forall k f e,
      inFlight (stateOf (provider w) k) = Some f ->
      entry (stateOf (provider w) k) = Some e ->
      interval <= clock w - fetchedAt e;
  inv_entry : forall k,
      is_Some (entry (stateOf (provider w) k)) <-> everSucceeded w k = true
}.

(** The milliseconds that pass during a sequence of events. *)
Fixpoint elapsed (evs : list Event) : Z :=
  match evs with
  | [] => 0
  | Tick d :: rest => Z.of_N d + elapsed rest
  | _ :: rest => elapsed rest
  end.

End Model.

Arguments CacheEntry : clear implicits.
Arguments InFlightFetch : clear implicits.
Arguments ProviderState : clear implicits.
Arguments Result : clear implicits.
Arguments Effect : clear implicits.
Arguments DataProvider K {_ _} T.
Arguments World K {_ _} T.
Arguments Event : clear implicits.

End Provider.

(* ===================================================================== *)
(** ** Alice-Bob request signature *)
(* ===================================================================== *)

Module AliceBob.

(** A property value of the payload. *)
Inductive Value : Type :=
| VUndefined
| VNull
| VBoolean (b : bool)
| VNumber (x : JsNumber.Number)
| VString (s : string)
| VObject.

(** The payload object: its own properties in creation order. *)
Definition Payload : Type := list (string * Value).

(** [!v] is false: 0, -0, NaN, the empty string, [false], [null] and
    [undefined] are falsy. *)
Definition truthy (v : Value) : bool :=
  match v with
  | VUndefined | VNull => false
  | VBoolean b => b
  | VNumber (S754_zero _) | VNumber S754_nan => false
  | VNumber _ => true
  | VString s => negb (String.eqb s "")
  | VObject => true
  end.

(** [typeof v === 'object'] *)
Definition isObject (v : Value) : bool :=
  match v with
  | VNull | VObject => true
  | _ => false
  end.

(** [payload[key]] *)
Fixpoint get (payload : Payload) (key : string) : Value :=
  match payload with
  | [] => VUndefined
  | (k, v) :: rest => if String.eqb k key then v else get rest key
  end.

(** [Object.keys(payload)]; the order does not matter, the keys are
    sorted next. *)
Definition keys (payload : Payload) : list string := map fst payload.

(** [keys.sort()]: ascending by code units. *)
Fixpoint insertKey (k : string) (l : list string) : list string :=
  match l with
  | [] => [k]
  | y :: ys => if String.leb k y then k :: y :: ys else y :: insertKey k ys
  end.

Definition sortKeys (l : list string) : list string :=
  fold_right insertKey [] l.

(** The entries the loop does not skip. *)
Definition contributes (v : Value) : bool := truthy v && negb (isObject v).

Section Signature.
(** The runtime's [Number.prototype.toString] and
    [String.prototype.toLowerCase], the HMAC-SHA512 hex digest and the
    private key of the environment. *)
Variable Number_toString : JsNumber.Number -> string.
Variable toLowerCase : string -> string.
Variable createHmac : string -> string -> string.
Variable ALICE_BOB_PRIVATE_KEY : string.

(** [v.toString()] for a value the loop does not skip. *)
Definition toString (v : Value) : string :=
  match v with
  | VString s => s
  | VNumber x => Number_toString x
  | VBoolean true => "true"
  | VBoolean false => "false"
  | VObject => "[object Object]"
  | VUndefined | VNull => ""          (* skipped by the loop *)
  end.

(** One iteration of the loop over the sorted keys. *)
Definition appendEntry (payload : Payload) (initString key : string) : string :=
  let v := get payload key in
  if negb (truthy v) || isObject v then initString
  else initString ++ toLowerCase key ++ toLowerCase (toString v).

(** The string that is signed. *)
Definition initStringOf (payload : option Payload) (now : Z) : string :=
  let initString :=
    match payload with
    | Some p => fold_left (appendEntry p) (sortKeys (keys p)) ""
    | None => ""
    end in
  initString ++ "timestamp" ++ Number_toString (JsNumber.ofZ now).

(** [getAliceBobSignature(payload)] when [Date.now()] is [now]. *)
Definition getAliceBobSignature (payload : option Payload) (now : Z)
  : string * Z :=
  (createHmac ALICE_BOB_PRIVATE_KEY (initStringOf payload now), now).
End Signature.

End AliceBob.

(* ===================================================================== *)
(** ** Selectors of the known ad providers *)
(* ===================================================================== *)

Module AdProviders.

(** A stored rule; the version and browser fields are read by
    [filterRules] only. *)
Record AdProviderSelectorsRule : Type := mkRule {
  extVersion : string;
  selectors : list string;
  negativeSelectors : option (list string);
  parentDepth : option Z;
  enableForMises : option bool;
  enableForNonMises : option bool
}.

(** [string | { selector: string; parentDepth: number }] *)
Inductive AdByProviderSelector : Type :=
| Plain (s : string)
| WithDepth (selector : string) (depth : Z).

(** An element of the Set: a string, or the object made for the rule at
    index [ref]; two objects are the same element only if they are the
    same object. *)
Inductive Item : Type :=
| IString (s : string)
| IObject (ref : nat) (selector : string) (depth : Z).

Definition Item_eqb (a b : Item) : bool :=
  match a, b with
  | IString s, IString t => String.eqb s t
  | IObject i _ _, IObject j _ _ => Nat.eqb i j
  | _, _ => false
  end.

(** Modelled from the spec: [isDefined] of [utils/helpers], which is not
    among the sources; it holds of a value that is neither [undefined]
    nor [null]. *)
Definition isDefined {A : Type} (v : option A) : bool :=
  match v with
  | Some _ => true
  | None => false
  end.

(** [selectors.join(', ')] *)
Definition join (l : list string) : string := String.concat ", " l.

(** The callback of [map], with the index as the identity of the object
    it may create. *)
Definition mapRule (ref : nat) (rule : AdProviderSelectorsRule) : list Item :=
  match parentDepth rule with
  | Some d =>
      if isDefined (parentDepth rule) && (0 <? d)
      then [IObject ref (join (selectors rule)) d]
      else map IString (selectors rule)
  | None => map IString (selectors rule)
  end.

(** [new Set(items)]: the elements in the order they were first added. *)
Definition addToSet (set : list Item) (x : Item) : list Item :=
  if existsb (Item_eqb x) set then set else set ++ [x].

Definition setOf (items : list Item) : list Item := fold_left addToSet items [].

Definition toSelector (x : Item) : AdByProviderSelector :=
  match x with
  | IString s => Plain s
  | IObject _ sel d => WithDepth sel d
  end.

Section Transform.
(** [filterRules] of [advertising/external-ads] is not among the sources. *)
Variable filterRules :
  list AdProviderSelectorsRule -> option string -> option bool ->
  list AdProviderSelectorsRule.

(** [rules.map(...).flat()] on the rules that passed the filter. *)
Definition flatItems (filtered : list AdProviderSelectorsRule) : list Item :=
  concat (imap mapRule filtered).

(** [transformAdProviderSelectorsRules(rules, req)], with the two query
    parameters of the request. *)
Definition transformAdProviderSelectorsRules
           (rules : list AdProviderSelectorsRule)
           (extVersionQuery : option string) (isMisesBrowserQuery : option string)
  : list AdByProviderSelector :=
  let isMises :=
    match isMisesBrowserQuery with
    | Some q => String.eqb q "true"
    | None => false
    end in
  map toSelector
      (setOf (flatItems (filterRules rules extVersionQuery (Some isMises)))).

(** The value sent for one provider by [GET /negative-selectors]. *)
Definition negativeSelectorsOf (providerRules : list AdProviderSelectorsRule)
           (extVersionQuery : option string) : list string :=
  concat (map (fun r => default [] (negativeSelectors r))
              (filterRules providerRules extVersionQuery None)).
End Transform.

End AdProviders.

(* ===================================================================== *)
(** ** Terms the further properties are stated in *)
(* ===================================================================== *)

(** The estimate in the earlier revision of [getDAppDetails]. *)
Module BcdEarlier.
Import Bcd.

(** ToNumber on the values a count can hold: [undefined] becomes NaN. *)
Definition ToNumber (v : JsValue) : JsNumber.Number :=
  match v with
  | Undefined => JsNumber.NaN
  | Num x => x
  end.

Section Estimate.
Variable LocalTZA : Z -> bool -> Z.

(** The computation of [estimatedUsersPerMonth] in the earlier
    [getDAppDetails], whose destructuring has no defaults. *)
Definition estimatedUsersPerMonth (nowTimestamp : Z)
           (series : list SeriesPoint) : JsValue :=
  let lastSeries := slice_neg2 series in
  match lastSeries with
  | [p] => readCount p                      (* lastSeries[0][1] *)
  | prev :: cur :: _ =>
      (* [[, prevMonthUsers], [currentMonthTimestamp, currentMonthUsers]] *)
      let prevMonthUsers := readCount prev in
      let currentMonthTimestamp := JsNumber.ofZ (timestamp cur) in
      let currentMonthUsers := readCount cur in
      let currentMonthPartMs :=
        JsNumber.sub (JsNumber.ofZ nowTimestamp) currentMonthTimestamp in
      if JsNumber.lt currentMonthPartMs oneWeekMs then prevMonthUsers
      else
        let nextMonthDate := nextMonthDateOf LocalTZA (timestamp cur) in
        let currentMonthUsersEstimation :=
          JsNumber.Math_round
            (JsNumber.mul
               (JsNumber.div
                  (JsNumber.sub (JsDate.getTime nextMonthDate) currentMonthTimestamp)
                  currentMonthPartMs)
               (ToNumber currentMonthUsers)) in
        Num (JsNumber.Math_max
               (JsNumber.Math_round
                  (JsNumber.div
                     (JsNumber.add (ToNumber prevMonthUsers)
                                   currentMonthUsersEstimation)
                     (JsNumber.ofZ 2)))
               (ToNumber currentMonthUsers))
  | [] => Num (JsNumber.ofZ 0)
  end.
End Estimate.

End BcdEarlier.

(** The Gregorian calendar as it is usually written, to compare the
    arithmetic of [JsDate] with. *)
Module Calendar.

Definition isLeapYear (y : Z) : bool :=
  ((y mod 4 =? 0) && negb (y mod 100 =? 0)) || (y mod 400 =? 0).

(** Days of month [m] (0 = January) of year [y]. *)
Definition daysInMonth (y m : Z) : Z :=
  if m =? 1 then (if isLeapYear y then 29 else 28)
  else if (m =? 3) || (m =? 5) || (m =? 8) || (m =? 10) then 30
  else 31.

End Calendar.

(** What is stored in the Redis list of notifications. *)
Module NotificationStore.
Import Notifications.

Section Store.
Variable JSON_parse : string -> option Notification.
Variable JSON_stringify : Notification -> string.
Variable Date_getTime : string -> option Z.

(** The stored text is that of a notification that has expired. *)
Definition expiredText (now : Z) (item : string) : bool :=
  match JSON_parse item with
  | Some n => expired Date_getTime now n
  | None => false
  end.

(** Every stored text is what [JSON.stringify] gives for the notification
    it parses to. *)
Definition canonicalStore (redis : list string) : Prop :=
  forall item, item ∈ redis ->
               exists n, JSON_parse item = Some n /\ JSON_stringify n = item.

(** [a] was created no earlier than [b]. *)
Definition newerOrSame (a b : Notification) : Prop :=
  exists ta tb, Date_getTime (createdAt a) = Some ta
                /\ Date_getTime (createdAt b) = Some tb /\ tb <= ta.

(** The creation date of [n] parses. *)
Definition dated (n : Notification) : Prop :=
  is_Some (Date_getTime (createdAt n)).
End Store.

End NotificationStore.

(** The order of [Object.keys(payload).sort()]. *)
Module KeyOrder.

(** [a] comes before [b] in the order of [sort()], or is [b]. *)
Definition keyLe (a b : string) : Prop := String.leb a b = true.

End KeyOrder.

(** Reading an answer of [transformAdProviderSelectorsRules]. *)
Module AdProvidersAnswer.
Import AdProviders.

(** The depth of a rule that is answered as an object: [parentDepth] when
    it is given and positive. *)
Definition positiveDepth (rule : AdProviderSelectorsRule) : option Z :=
  match parentDepth rule with
  | Some d => if 0 <? d then Some d else None
  | None => None
  end.

(** The strings of an answer, in order. *)
Definition plainSelectors (answer : list AdByProviderSelector) : list string :=
  omap (fun x => match x with Plain s => Some s | WithDepth _ _ => None end)
       answer.

(** The objects of an answer, in order. *)
Definition depthSelectors (answer : list AdByProviderSelector)
  : list (string * Z) :=
  omap (fun x => match x with Plain _ => None | WithDepth s d => Some (s, d) end)
       answer.

(** The identities of the objects among the items of a Set. *)
Definition refs (items : list Item) : list nat :=
  omap (fun x => match x with IString _ => None | IObject i _ _ => Some i end)
       items.

End AdProvidersAnswer.

(* ===================================================================== *)
(** ** Sample data *)
(* ===================================================================== *)

Module Samples.

(** A host whose local time is UTC. *)
Definition utcZone : Z -> bool -> Z := fun _ _ => 0.

Definition dAppA : Bcd.DAppsListItem :=
  Bcd.mkDApp "Quipuswap" "quipuswap" "https://quipuswap.com" ["DeFi"] false.
Definition dAppB : Bcd.DAppsListItem :=
  Bcd.mkDApp "Quipuswap (mirror)" "quipuswap" "https://example.org" ["DeFi"] false.
Definition dAppC : Bcd.DAppsListItem :=
  Bcd.mkDApp "Kolibri" "kolibri" "https://kolibri.finance" ["DeFi"] true.

(** The value of a string of decimal digits. *)
Fixpoint digits (s : string) (acc : Z) : option Z :=
  match s with
  | EmptyString => Some acc
  | String a rest =>
      let n := Z.of_nat (Ascii.nat_of_ascii a) in
      if (48 <=? n) && (n <=? 57) then digits rest (10 * acc + (n - 48))
      else None
  end.

(** [new Date(s).getTime()] on the format [YYYY-MM-DDTHH:mm:ss.sssZ] the
    stored notifications use; any other string is taken as invalid. *)
Definition isoTime (s : string) : option Z :=
  if negb (String.length s =? 24)%nat then None
  else if negb (String.eqb (substring 4 1 s) "-" && String.eqb (substring 7 1 s) "-"
                && String.eqb (substring 10 1 s) "T"
                && String.eqb (substring 13 1 s) ":"
                && String.eqb (substring 16 1 s) ":"
                && String.eqb (substring 19 1 s) "."
                && String.eqb (substring 23 1 s) "Z") then None
  else
    match digits (substring 0 4 s) 0, digits (substring 5 2 s) 0,
          digits (substring 8 2 s) 0, digits (substring 11 2 s) 0,
          digits (substring 14 2 s) 0, digits (substring 17 2 s) 0,
          digits (substring 20 3 s) 0 with
    | Some y, Some mo, Some d, Some h, Some mi, Some sec, Some ms =>
        if (1 <=? mo) && (mo <=? 12) && (1 <=? d) && (d <=? 31)
           && (h <=? 23) && (mi <=? 59) && (sec <=? 59)
        then JsDate.TimeClip
               (JsDate.MakeDate (JsDate.MakeDay y (mo - 1) d)
                                (h * 3600000 + mi * 60000 + sec * 1000 + ms))
        else None
    | _, _, _, _, _, _, _ => None
    end.

Import Notifications.

(** Notification 7 of [NOTIFICATIONS_LIST], and one that has expired. *)
Definition notification7 : Notification :=
  {| id := 7;
     createdAt := "2022-12-07T14:30:00.000Z";
     type := SecurityNote;
     platforms := [Extension];
     language := "en-US";
     title := "SecurityNote 222 test title";
     description := "SecurityNote test description.";
     isMandatory := None;
     expirationDate := None |}.

Definition notification8 : Notification :=
  {| id := 8;
     createdAt := "2022-12-08T09:00:00.000Z";
     type := News;
     platforms := [Extension; Mobile];
     language := "en-US";
     title := "Maintenance window";
     description := "The swap router is down for one hour.";
     isMandatory := Some true;
     expirationDate := Some "2022-12-09T09:00:00.000Z" |}.

(** A stand-in for the JSON texts of the two sample notifications. *)
Definition sampleParse (s : string) : option Notification :=
  if String.eqb s "json-of-7" then Some notification7
  else if String.eqb s "json-of-8" then Some notification8
  else None.

Definition sampleStringify (n : Notification) : string :=
  if id n =? 7 then "json-of-7" else "json-of-8".

Definition sampleRedis : list string := ["json-of-8"; "json-of-7"].

(** 2022-12-15T00:00:00.000Z and 2022-12-01T00:00:00.000Z *)
Definition sampleNow : Z := 1671062400000.
Definition sampleStart : Z := 1669852800000.

(** A provider of dApp details keyed by slug, refreshed every 14 minutes. *)
Definition detailsInterval : Z := 14 * 60 * 1000.

Definition firstFetchPending : list (Provider.Event string Z string) :=
  [Provider.Call 1%nat "quipuswap"].

Definition firstFetchDone : list (Provider.Event string Z string) :=
  [Provider.Call 1%nat "quipuswap"; Provider.Resolve 0%nat 4200].

Definition refreshPending : list (Provider.Event string Z string) :=
  [Provider.Call 1%nat "quipuswap"; Provider.Resolve 0%nat 4200;
   Provider.Tick 840000; Provider.Call 2%nat "quipuswap"].

End Samples.

(** Further sample data. *)
Module MoreSamples.
Import Notifications.

(** 2022-12-08T12:00:00.000Z, before notification 8 expires, and
    2022-12-08T00:00:00.000Z. *)
Definition sampleEarly : Z := 1670500800000.
Definition sampleLateStart : Z := 1670457600000.

(** 2023-01-31T00:00:00.000Z *)
Definition january31 : Z := 1675123200000.

(** ASCII lower case, a stand-in for [String.prototype.toLowerCase]. *)
Definition lowerAscii (a : Ascii.ascii) : Ascii.ascii :=
  let n := Ascii.nat_of_ascii a in
  if ((65 <=? n) && (n <=? 90))%nat then Ascii.ascii_of_nat (n + 32) else a.

Fixpoint sampleToLowerCase (s : string) : string :=
  match s with
  | EmptyString => EmptyString
  | String a rest => String (lowerAscii a) (sampleToLowerCase rest)
  end.

(** The decimal text of a Number that is an integer (as [Date.now()] is),
    and a stand-in for the HMAC digest. *)
Definition sampleNumberToString (x : JsNumber.Number) : string :=
  match x with
  | S754_zero _ => "0"
  | S754_finite s m e =>
      let z := if 0 <=? e then Zpos m * 2 ^ e else Zpos m / 2 ^ (- e) in
      NilZero.string_of_int (Z.to_int (if s then - z else z))
  | S754_infinity false => "Infinity"
  | S754_infinity true => "-Infinity"
  | S754_nan => "NaN"
  end.

Definition sampleHmac (key message : string) : string :=
  "hmac(" ++ key ++ "," ++ message ++ ")".

Definition sampleKey : string := "secret".

Definition payloadFromTo : AliceBob.Payload :=
  [("from", AliceBob.VString "CARDUAH"); ("to", AliceBob.VString "USDT")].

Definition payloadToFrom : AliceBob.Payload :=
  [("to", AliceBob.VString "USDT"); ("from", AliceBob.VString "CARDUAH")].

Definition payloadWithBlanks : AliceBob.Payload :=
  [("userId", AliceBob.VString ""); ("from", AliceBob.VString "CARDUAH");
   ("extra", AliceBob.VObject); ("to", AliceBob.VString "USDT");
   ("fromAmount", AliceBob.VNumber (JsNumber.ofZ 0))].

Definition payloadOfBlanks : AliceBob.Payload :=
  [("userId", AliceBob.VString ""); ("extra", AliceBob.VNull)].

(** Two rules that share a selector, and two with the same depth. *)
Definition ruleBanner : AdProviders.AdProviderSelectorsRule :=
  AdProviders.mkRule "*" ["div.banner"; "iframe.ad"] None None None None.
Definition ruleFrame : AdProviders.AdProviderSelectorsRule :=
  AdProviders.mkRule "*" ["iframe.ad"] None (Some 0) None None.
Definition ruleDeep : AdProviders.AdProviderSelectorsRule :=
  AdProviders.mkRule "*" ["a.promo"; "img.promo"] None (Some 2) None None.

(** A filter that lets every rule pass. *)
Definition passAll (rules : list AdProviders.AdProviderSelectorsRule)
           (extVersion : option string) (isMises : option bool)
  : list AdProviders.AdProviderSelectorsRule := rules.

End MoreSamples.

(* ===================================================================== *)
(** * Properties *)
(* ===================================================================== *)

(** ** The monthly-active-user estimate *)

Section NumberFacts.
Import JsNumber.

(** No Number is below itself. *)
Lemma lt_irrefl (x : Number) : lt x x = false.
Proof.
  unfold lt, SFltb, SFcompare.
  destruct x as [s|s| |s m e]; try destruct s; try reflexivity.
  all: rewrite Z.compare_refl, Pos.compare_cont_refl; reflexivity.
Qed.

(** [Math.max(x, y)] is never below [y], NaN included: [<] is false of
    NaN. *)
Lemma Math_max_not_below (x y : Number) : lt (Math_max x y) y = false.
Proof.
  unfold Math_max.
  destruct x as [sx|sx| |sx mx ex], y as [sy|sy| |sy my ey]; try reflexivity.
  all: match goal with
       | |- lt (if lt ?a ?b then _ else _) _ = false =>
           destruct (lt a b) eqn:Hlt; [apply lt_irrefl|exact Hlt]
       end.
Qed.

(** *** Integers below 2^53 are handled exactly

    The number of binary digits of a mantissa. *)
Lemma digits2_pos_size (p : positive) : digits2_pos p = Pos.size p.
Proof. induction p as [p IH|p IH|]; cbn; congruence. Qed.

Lemma digits2_pos_log2 (p : positive) :
  Zpos (digits2_pos p) = Z.log2 (Zpos p) + 1.
Proof.
  rewrite digits2_pos_size.
  destruct p as [q|q|]; cbn [Pos.size Z.log2]; rewrite ?Pos2Z.inj_succ; lia.
Qed.

Lemma digits_bounds (p : positive) :
  2 ^ (Zpos (digits2_pos p) - 1) <= Zpos p < 2 ^ Zpos (digits2_pos p).
Proof.
  rewrite digits2_pos_log2.
  replace (Z.log2 (Zpos p) + 1 - 1) with (Z.log2 (Zpos p)) by lia.
  pose proof (Z.log2_spec (Zpos p) ltac:(lia)) as Hs.
  replace (Z.succ (Z.log2 (Zpos p))) with (Z.log2 (Zpos p) + 1) in Hs by lia.
  exact Hs.
Qed.

Lemma digits_scaled (m p : positive) (k : Z) :
  0 <= k -> Zpos m = Zpos p * 2 ^ k ->
  Zpos (digits2_pos m) = Zpos (digits2_pos p) + k.
Proof.
  intros Hk Hm. rewrite !digits2_pos_log2, Hm.
  rewrite Z.log2_mul_pow2 by lia. lia.
Qed.

Lemma iter_xO_value (m : positive) (d : positive) :
  Zpos (Pos.iter xO m d) = Zpos m * 2 ^ Zpos d.
Proof.
  revert m. induction d as [|d IH] using Pos.peano_ind; intros m.
  - simpl. lia.
  - rewrite Pos.iter_succ, Pos2Z.inj_succ, Z.pow_succ_r by lia.
    rewrite Pos2Z.inj_xO, IH. lia.
Qed.

Lemma iter_pos_nat {A : Type} (f : A -> A) (n : positive) (x : A) :
  SpecFloat.iter_pos f n x = Nat.iter (Pos.to_nat n) f x.
Proof.
  revert x. induction n as [n IH|n IH|]; intros x.
  - rewrite Pos2Nat.inj_xI. cbn [SpecFloat.iter_pos]. rewrite !IH.
    replace (S (2 * Pos.to_nat n))%nat with (Pos.to_nat n + (Pos.to_nat n + 1))%nat by lia.
    rewrite !Nat.iter_add. reflexivity.
  - rewrite Pos2Nat.inj_xO. cbn [SpecFloat.iter_pos]. rewrite !IH.
    replace (2 * Pos.to_nat n)%nat with (Pos.to_nat n + Pos.to_nat n)%nat by lia.
    rewrite Nat.iter_add. reflexivity.
  - reflexivity.
Qed.

(** Shifting out zero bits is exact. *)
Lemma shr_iter_exact (j : nat) (M : positive) (m : Z) :
  m = Zpos M * 2 ^ Z.of_nat j ->
  Nat.iter j shr_1 {| shr_m := m; shr_r := false; shr_s := false |}
  = {| shr_m := Zpos M; shr_r := false; shr_s := false |}.
Proof.
  revert M m. induction j as [|j IH]; intros M m Hm.
  - simpl in *. f_equal. lia.
  - rewrite Nat.iter_succ.
    rewrite (IH (xO M) m).
    + reflexivity.
    + rewrite Hm, Nat2Z.inj_succ, Z.pow_succ_r by lia. lia.
Qed.

Lemma fexp_canonical (d : Z) : 1 <= d -> fexp prec emax d = d - 53.
Proof. intros Hd. unfold fexp, emin, prec, emax. lia. Qed.

(** A mantissa of 53 digits is not shifted. *)
Lemma shr_fexp_canonical (q : positive) (t : Z) :
  Zpos (digits2_pos q) = 53 -> -1074 <= t ->
  shr_fexp prec emax (Zpos q) t loc_Exact
  = ({| shr_m := Zpos q; shr_r := false; shr_s := false |}, t).
Proof.
  intros Hd Ht. unfold shr_fexp. simpl Zdigits2. rewrite Hd.
  unfold fexp, emin, prec, emax.
  replace (Z.max (53 + t - 53) (3 - 1024 - 53) - t) with 0 by lia.
  reflexivity.
Qed.

Lemma binary_round_aux_from (s : bool) (mx ex : Z) (q : positive) (t : Z) :
  shr_fexp prec emax mx ex loc_Exact
  = ({| shr_m := Zpos q; shr_r := false; shr_s := false |}, t) ->
  Zpos (digits2_pos q) = 53 -> -1074 <= t <= 971 ->
  binary_round_aux prec emax s mx ex loc_Exact = S754_finite s q t.
Proof.
  intros Hshr Hd Ht. unfold binary_round_aux. rewrite Hshr.
  cbn [shr_m loc_of_shr_record round_nearest_even].
  rewrite (shr_fexp_canonical q t Hd) by lia.
  cbn [shr_m]. unfold emax, prec.
  destruct (Z.leb_spec t (1024 - 53)); [reflexivity|lia].
Qed.

(** Rounding a scaled integer of at most 53 digits is exact: the result
    is the mantissa brought to 53 digits. *)
Lemma binary_round_exact (s : bool) (m p q : positive) (k : Z) :
  0 <= k -> Zpos m = Zpos p * 2 ^ k ->
  Zpos (digits2_pos p) <= 53 ->
  Zpos q = Zpos p * 2 ^ (53 - Zpos (digits2_pos p)) ->
  binary_round prec emax s m (- k)
  = S754_finite s q (Zpos (digits2_pos p) - 53).
Proof.
  intros Hk Hm Hd Hq.
  set (d := Zpos (digits2_pos p)) in *.
  assert (Hd1 : 1 <= d) by (unfold d; lia).
  assert (Hdm : Zpos (digits2_pos m) = d + k) by (apply digits_scaled; assumption).
  assert (Hdq : Zpos (digits2_pos q) = 53).
  { rewrite (digits_scaled q p (53 - d)); [unfold d; lia|lia|exact Hq]. }
  unfold binary_round. rewrite Hdm.
  replace (d + k + - k) with d by lia. rewrite (fexp_canonical d Hd1).
  unfold shl_align.
  destruct (d - 53 - - k) as [|n|n] eqn:Hn.
  - (* the mantissa has 53 digits already *)
    assert (m = q).
    { apply Pos2Z.inj. rewrite Hm, Hq. f_equal. f_equal. lia. }
    subst m. replace (- k) with (d - 53) by lia.
    apply binary_round_aux_from; [|exact Hdq|lia].
    apply shr_fexp_canonical; [exact Hdq|lia].
  - (* more than 53 digits: the low bits are zero *)
    apply binary_round_aux_from with (q := q) (t := d - 53); [|exact Hdq|lia].
    unfold shr_fexp. simpl Zdigits2. rewrite Hdm.
    replace (d + k + - k) with d by lia. rewrite (fexp_canonical d Hd1), Hn.
    unfold shr. rewrite iter_pos_nat.
    cbn [shr_record_of_loc].
    rewrite (shr_iter_exact (Pos.to_nat n) q (Zpos m)).
    + f_equal. lia.
    + rewrite positive_nat_Z, Hm, Hq, <- Z.mul_assoc, <- Z.pow_add_r by lia.
      f_equal. f_equal. lia.
  - (* fewer than 53 digits: shift left *)
    assert (Pos.iter xO m n = q).
    { apply Pos2Z.inj. rewrite iter_xO_value, Hm, Hq, <- Z.mul_assoc, <- Z.pow_add_r by lia.
      f_equal. f_equal. lia. }
    rewrite H.
    apply binary_round_aux_from; [|exact Hdq|lia].
    apply shr_fexp_canonical; [exact Hdq|lia].
Qed.

Lemma mant53_value (p : positive) :
  Zpos (digits2_pos p) <= 53 ->
  Zpos (mant53 p) = Zpos p * 2 ^ (53 - Zpos (digits2_pos p)).
Proof.
  intros Hd. unfold mant53. rewrite Z2Pos.id; [reflexivity|].
  apply Z.mul_pos_pos; [lia|]. apply Z.pow_pos_nonneg; lia.
Qed.

Lemma digits_le_53 (p : positive) : Zpos p < 2 ^ 53 -> Zpos (digits2_pos p) <= 53.
Proof.
  intros Hp. pose proof (digits_bounds p) as [Hlo _].
  destruct (Z.le_gt_cases (Zpos (digits2_pos p)) 53) as [Hle|Hgt]; [exact Hle|].
  exfalso.
  assert (2 ^ 53 <= 2 ^ (Zpos (digits2_pos p) - 1)) by (apply Z.pow_le_mono_r; lia).
  lia.
Qed.

Lemma binary_round_int (s : bool) (m p : positive) (k : Z) :
  0 <= k -> Zpos m = Zpos p * 2 ^ k -> Zpos p < 2 ^ 53 ->
  binary_round prec emax s m (- k)
  = S754_finite s (mant53 p) (Zpos (digits2_pos p) - 53).
Proof.
  intros Hk Hm Hp. pose proof (digits_le_53 p Hp) as Hd.
  apply (binary_round_exact s m p (mant53 p) k Hk Hm Hd).
  now apply mant53_value.
Qed.

(** The Number of an integer below 2^53 in absolute value. *)
Lemma ofZ_pos (p : positive) :
  Zpos p < 2 ^ 53 ->
  ofZ (Zpos p) = S754_finite false (mant53 p) (Zpos (digits2_pos p) - 53).
Proof.
  intros Hp. unfold ofZ, binary_normalize.
  apply (binary_round_int false p p 0); [lia|lia|exact Hp].
Qed.

Lemma ofZ_neg (p : positive) :
  Zpos p < 2 ^ 53 ->
  ofZ (Zneg p) = S754_finite true (mant53 p) (Zpos (digits2_pos p) - 53).
Proof.
  intros Hp. unfold ofZ, binary_normalize.
  apply (binary_round_int true p p 0); [lia|lia|exact Hp].
Qed.

Lemma shl_align_value (mx : positive) (ex ez : Z) :
  ez <= ex -> Zpos (fst (shl_align mx ex ez)) = Zpos mx * 2 ^ (ex - ez).
Proof.
  intros Hle. unfold shl_align.
  destruct (ez - ex) as [|n|n] eqn:Hn; simpl fst.
  - replace (ex - ez) with 0 by lia. lia.
  - lia.
  - rewrite iter_xO_value. f_equal. f_equal. lia.
Qed.

(** Subtraction of integers between 0 and 2^53 is exact. *)
Lemma sub_ofZ_exact (a b : Z) :
  0 <= a < 2 ^ 53 -> 0 <= b < 2 ^ 53 ->
  sub (ofZ a) (ofZ b) = ofZ (a - b).
Proof.
  intros Ha Hb.
  destruct a as [|pa|pa]; [| |lia]; (destruct b as [|pb|pb]; [| |lia]).
  - reflexivity.
  - rewrite (ofZ_pos pb) by lia. change (0 - Zpos pb) with (Zneg pb).
    rewrite (ofZ_neg pb) by lia. reflexivity.
  - rewrite Z.sub_0_r. rewrite (ofZ_pos pa) by lia. reflexivity.
  - assert (Hpa : Zpos pa < 2 ^ 53) by lia. assert (Hpb : Zpos pb < 2 ^ 53) by lia.
    rewrite (ofZ_pos pa Hpa), (ofZ_pos pb Hpb).
    pose proof (digits_le_53 pa Hpa) as Hda. pose proof (digits_le_53 pb Hpb) as Hdb.
    set (da := Zpos (digits2_pos pa)) in *. set (db := Zpos (digits2_pos pb)) in *.
    assert (Hda1 : 1 <= da) by (unfold da; lia).
    assert (Hdb1 : 1 <= db) by (unfold db; lia).
    unfold sub, SFsub. cbn [cond_Zopp].
    set (ez := Z.min (da - 53) (db - 53)).
    rewrite !shl_align_value by (unfold ez; lia).
    rewrite !mant53_value by assumption. fold da db.
    set (k := - ez).
    assert (Hk : 0 <= k) by (unfold k, ez; lia).
    assert (HA : Zpos pa * 2 ^ (53 - da) * 2 ^ (da - 53 - ez) = Zpos pa * 2 ^ k).
    { rewrite <- Z.mul_assoc, <- Z.pow_add_r by (unfold ez; lia).
      f_equal. f_equal. unfold k. lia. }
    assert (HB : Zpos pb * 2 ^ (53 - db) * 2 ^ (db - 53 - ez) = Zpos pb * 2 ^ k).
    { rewrite <- Z.mul_assoc, <- Z.pow_add_r by (unfold ez; lia).
      f_equal. f_equal. unfold k. lia. }
    rewrite HA, HB. replace ez with (- k) by (unfold k; lia).
    assert (Hpow : 0 < 2 ^ k) by (apply Z.pow_pos_nonneg; lia).
    unfold binary_normalize.
    destruct (Zpos pa * 2 ^ k - Zpos pb * 2 ^ k) as [|m|m] eqn:Hdiff.
    + assert (Zpos pa = Zpos pb) by nia.
      replace (Zpos pa - Zpos pb) with 0 by lia. reflexivity.
    + assert (Hgt : Zpos pb < Zpos pa) by nia.
      destruct (Zpos pa - Zpos pb) as [|p|p] eqn:Hp; try lia.
      rewrite (ofZ_pos p) by lia.
      apply binary_round_int; [exact Hk| |lia].
      rewrite <- Hdiff, <- Hp. ring.
    + assert (Hlt : Zpos pa < Zpos pb) by nia.
      destruct (Zpos pa - Zpos pb) as [|p|p] eqn:Hp; try lia.
      rewrite (ofZ_neg p) by lia.
      apply binary_round_int; [exact Hk| |lia].
      assert (Zpos m = Zpos pb * 2 ^ k - Zpos pa * 2 ^ k) by lia.
      assert (Zpos p = Zpos pb - Zpos pa) by lia.
      rewrite H, H0. ring.
Qed.

(** [<] on the Numbers of integers below 2^53 is [<] on the integers. *)
Lemma lt_ofZ (x y : Z) :
  - 2 ^ 53 < x < 2 ^ 53 -> 0 < y < 2 ^ 53 ->
  lt (ofZ x) (ofZ y) = (x <? y).
Proof.
  intros Hx Hy.
  destruct y as [|py|py]; try lia.
  rewrite (ofZ_pos py) by lia.
  destruct x as [|px|px].
  - reflexivity.
  - rewrite (ofZ_pos px) by lia.
    assert (Hpx : Zpos px < 2 ^ 53) by lia. assert (Hpy : Zpos py < 2 ^ 53) by lia.
    pose proof (digits_le_53 px Hpx) as Hdx. pose proof (digits_le_53 py Hpy) as Hdy.
    pose proof (digits_bounds px) as [Hxlo Hxhi].
    pose proof (digits_bounds py) as [Hylo Hyhi].
    pose proof (mant53_value px Hdx) as Hmx. pose proof (mant53_value py Hdy) as Hmy.
    set (dx := Zpos (digits2_pos px)) in *. set (dy := Zpos (digits2_pos py)) in *.
    unfold lt, SFltb, SFcompare.
    destruct (Z.compare_spec (dx - 53) (dy - 53)) as [Heq|Hlt|Hgt].
    + assert (Hd : dx = dy) by lia.
      change (Pos.compare_cont Eq (mant53 px) (mant53 py))
        with (Zpos (mant53 px) ?= Zpos (mant53 py)).
      rewrite Hmx, Hmy, Hd.
      assert (Hpow : 0 < 2 ^ (53 - dy)) by (apply Z.pow_pos_nonneg; lia).
      destruct (Z.compare_spec (Zpos px * 2 ^ (53 - dy)) (Zpos py * 2 ^ (53 - dy)));
        destruct (Z.ltb_spec (Zpos px) (Zpos py)); try reflexivity; nia.
    + assert (2 ^ dx <= 2 ^ (dy - 1)) by (apply Z.pow_le_mono_r; lia).
      destruct (Z.ltb_spec (Zpos px) (Zpos py)); [reflexivity|lia].
    + assert (2 ^ dy <= 2 ^ (dx - 1)) by (apply Z.pow_le_mono_r; lia).
      destruct (Z.ltb_spec (Zpos px) (Zpos py)); [lia|reflexivity].
  - rewrite (ofZ_neg px) by lia. reflexivity.
Qed.

(** The test of the estimate on timestamps between 0 and 2^53. *)
Lemma elapsed_lt_week (now ts : Z) :
  0 <= now < 2 ^ 53 -> 0 <= ts < 2 ^ 53 ->
  lt (sub (ofZ now) (ofZ ts)) (ofZ 604800000) = (now - ts <? 604800000).
Proof.
  intros Hnow Hts. rewrite sub_ofZ_exact by assumption.
  apply lt_ofZ; lia.
Qed.

End NumberFacts.

Section EstimateFacts.
Import Bcd JsNumber.
Variable LocalTZA : Z -> bool -> Z.

Abbreviation estimate := (estimatedUsersPerMonth LocalTZA).

Lemma slice_neg2_two {A : Type} (pre : list A) (a b : A) :
  slice_neg2 (pre ++ [a; b]) = [a; b].
Proof.
  unfold slice_neg2. rewrite length_app. simpl.
  replace (length pre + 2 - 2)%nat with (length pre) by lia.
  apply drop_app_length.
Qed.


(** On two or more points the estimate only reads the last two. *)
Lemma estimate_last_two (now : Z) (pre : list SeriesPoint) (prev cur : SeriesPoint) :
  estimate now (pre ++ [prev; cur]) = estimate now [prev; cur].
Proof.
  unfold estimatedUsersPerMonth. rewrite slice_neg2_two. reflexivity.
Qed.

(** The two branches taken on two points. *)
Lemma estimate_two_points (now : Z) (prev cur : SeriesPoint) :
  estimate now [prev; cur] =
  let elapsed := sub (ofZ now) (ofZ (timestamp cur)) in
  if lt elapsed oneWeekMs then Num (countOr0 prev)
  else
    Num (Math_max
           (Math_round
              (div (add (countOr0 prev)
                        (Math_round
                           (mul (div (sub (JsDate.getTime
                                             (nextMonthDateOf LocalTZA (timestamp cur)))
                                          (ofZ (timestamp cur)))
                                     elapsed)
                                (countOr0 cur))))
                   (ofZ 2)))
           (countOr0 cur)).
Proof. reflexivity. Qed.

(** C5: on an empty series the estimate is 0; when exactly one point is
    taken from the series, the estimate is that point's count as it
    stands, so [[T0, 100]] gives 100. *)
Theorem estimate_empty_or_single_point (now : Z) :
  estimate now [] = Num (ofZ 0)
  /\ (forall series p, slice_neg2 series = [p] ->
                       estimate now series = readCount p)
  /\ (forall series p c, slice_neg2 series = [p] -> count p = Some c ->
                         estimate now series = Num (ofZ c))
  /\ (forall T0, estimate now [mkPoint T0 (Some 100)] = Num (ofZ 100)).
Proof.
  split; [reflexivity|].
  assert (Hone : forall series p, slice_neg2 series = [p] ->
                                  estimate now series = readCount p).
  { intros series p Hs. unfold estimatedUsersPerMonth. rewrite Hs. reflexivity. }
  split; [exact Hone|]. split.
  - intros series p c Hs Hc. rewrite (Hone _ _ Hs). unfold readCount.
    rewrite Hc. reflexivity.
  - intros T0. reflexivity.
Qed.

(** C6: with two or more points and less than one week elapsed since the
    last point's timestamp, the estimate is the count of the
    second-to-last point; [[T0, 100], [T1, 10]] two days after T1
    gives 100.  Timestamps from 0 to 2^53 are subtracted and compared
    exactly; for any others the test is the one the code makes on
    Numbers. *)
Theorem estimate_young_month_is_previous :
  (forall now pre prev cur prevCount,
      0 <= timestamp cur < 2 ^ 53 -> 0 <= now < 2 ^ 53 ->
      now - timestamp cur < 7 * 24 * 3600 * 1000 ->
      count prev = Some prevCount ->
      estimate now (pre ++ [prev; cur]) = Num (ofZ prevCount))
  /\ (forall now pre prev cur prevCount,
         let elapsedIntoCurrentMonth := sub (ofZ now) (ofZ (timestamp cur)) in
         lt elapsedIntoCurrentMonth (ofZ (7 * 24 * 3600 * 1000)) = true ->
         count prev = Some prevCount ->
         estimate now (pre ++ [prev; cur]) = Num (ofZ prevCount))
  /\ (forall T0 T1,
         0 <= T1 -> T1 + 2 * JsDate.msPerDay < 2 ^ 53 ->
         estimate (T1 + 2 * JsDate.msPerDay)
                  [mkPoint T0 (Some 100); mkPoint T1 (Some 10)] = Num (ofZ 100)).
Proof.
  assert (Hnum : forall now pre prev cur prevCount,
             lt (sub (ofZ now) (ofZ (timestamp cur))) (ofZ (7 * 24 * 3600 * 1000))
             = true ->
             count prev = Some prevCount ->
             estimate now (pre ++ [prev; cur]) = Num (ofZ prevCount)).
  { intros now pre prev cur prevCount Hyoung Hc.
    rewrite estimate_last_two, estimate_two_points. cbv zeta.
    change oneWeekMs with (ofZ (7 * 24 * 3600 * 1000)). rewrite Hyoung.
    unfold countOr0. rewrite Hc. reflexivity. }
  assert (Hint : forall now pre prev cur prevCount,
             0 <= timestamp cur < 2 ^ 53 -> 0 <= now < 2 ^ 53 ->
             now - timestamp cur < 7 * 24 * 3600 * 1000 ->
             count prev = Some prevCount ->
             estimate now (pre ++ [prev; cur]) = Num (ofZ prevCount)).
  { intros now pre prev cur prevCount Hts Hnow Hyoung Hc.
    apply Hnum; [|exact Hc].
    change (7 * 24 * 3600 * 1000) with 604800000.
    rewrite (elapsed_lt_week now (timestamp cur) Hnow Hts).
    apply Z.ltb_lt. lia. }
  split; [exact Hint|]. split; [exact Hnum|].
  intros T0 T1 HT1 Hnow.
  apply (Hint _ [] (mkPoint T0 (Some 100)) (mkPoint T1 (Some 10)) 100);
    simpl; unfold JsDate.msPerDay in *; try reflexivity; lia.
Qed.

(** C7, as amended: with two or more points and at least one week
    elapsed, the estimate is max(round((prevCount + projected) / 2),
    curCount) where projected = round(((nextMonthDate - curTimestamp) /
    elapsed) * curCount), the quotient being rounded to a Number before it
    is multiplied; the estimate is never below curCount; and
    [[T0, 100], [T1, 15]] twenty days after T1 in a 30-day month gives 62.
    Timestamps from 0 to 2^53 are subtracted and compared exactly; for any
    others the test is the one the code makes on Numbers. *)
Theorem estimate_old_month_extrapolates :
  (forall now pre prev cur prevCount curCount,
      let elapsedIntoCurrentMonth := ofZ (now - timestamp cur) in
      let nextMonthDate :=
        JsDate.getTime (nextMonthDateOf LocalTZA (timestamp cur)) in
      let projected :=
        Math_round (mul (div (sub nextMonthDate (ofZ (timestamp cur)))
                             elapsedIntoCurrentMonth)
                        (ofZ curCount)) in
      let result :=
        Math_max (Math_round (div (add (ofZ prevCount) projected) (ofZ 2)))
                 (ofZ curCount) in
      0 <= timestamp cur < 2 ^ 53 -> 0 <= now < 2 ^ 53 ->
      7 * 24 * 3600 * 1000 <= now - timestamp cur ->
      count prev = Some prevCount ->
      count cur = Some curCount ->
      estimate now (pre ++ [prev; cur]) = Num result
      /\ lt result (ofZ curCount) = false)
  /\ (forall now pre prev cur prevCount curCount,
         let elapsedIntoCurrentMonth := sub (ofZ now) (ofZ (timestamp cur)) in
         let nextMonthDate :=
           JsDate.getTime (nextMonthDateOf LocalTZA (timestamp cur)) in
         let projected :=
           Math_round (mul (div (sub nextMonthDate (ofZ (timestamp cur)))
                                elapsedIntoCurrentMonth)
                           (ofZ curCount)) in
         let result :=
           Math_max (Math_round (div (add (ofZ prevCount) projected) (ofZ 2)))
                    (ofZ curCount) in
         lt elapsedIntoCurrentMonth (ofZ (7 * 24 * 3600 * 1000)) = false ->
         count prev = Some prevCount ->
         count cur = Some curCount ->
         estimate now (pre ++ [prev; cur]) = Num result
         /\ lt result (ofZ curCount) = false)
  /\ (forall T0 T1,
         0 <= T1 -> T1 + 30 * JsDate.msPerDay < 2 ^ 53 ->
         nextMonthDateOf LocalTZA T1 = Some (T1 + 30 * JsDate.msPerDay) ->
         estimate (T1 + 20 * JsDate.msPerDay)
                  [mkPoint T0 (Some 100); mkPoint T1 (Some 15)] = Num (ofZ 62)).
Proof.
  assert (Hnum : forall now pre prev cur prevCount curCount,
             lt (sub (ofZ now) (ofZ (timestamp cur))) (ofZ (7 * 24 * 3600 * 1000))
             = false ->
             count prev = Some prevCount ->
             count cur = Some curCount ->
             estimate now (pre ++ [prev; cur])
             = Num (Math_max
                      (Math_round
                         (div (add (ofZ prevCount)
                                   (Math_round
                                      (mul (div (sub (JsDate.getTime
                                                        (nextMonthDateOf LocalTZA
                                                           (timestamp cur)))
                                                     (ofZ (timestamp cur)))
                                                (sub (ofZ now) (ofZ (timestamp cur))))
                                           (ofZ curCount))))
                              (ofZ 2)))
                      (ofZ curCount))).
  { intros now pre prev cur prevCount curCount Hweek Hp Hc.
    rewrite estimate_last_two, estimate_two_points. cbv zeta.
    change oneWeekMs with (ofZ (7 * 24 * 3600 * 1000)).
    rewrite Hweek. unfold countOr0. rewrite Hp, Hc. reflexivity. }
  split; [|split].
  - intros now pre prev cur prevCount curCount elapsed next projected result
           Hts Hnow Hweek Hp Hc.
    split; [|apply Math_max_not_below].
    rewrite (Hnum now pre prev cur prevCount curCount); [|
      change (7 * 24 * 3600 * 1000) with 604800000;
      rewrite (elapsed_lt_week now (timestamp cur) Hnow Hts);
      apply Z.ltb_ge; lia | exact Hp | exact Hc].
    rewrite (sub_ofZ_exact now (timestamp cur) Hnow Hts). reflexivity.
  - intros now pre prev cur prevCount curCount elapsed next projected result
           Hweek Hp Hc.
    split; [|apply Math_max_not_below].
    apply Hnum; assumption.
  - intros T0 T1 HT1 Hlast Hnext.
    assert (Hnow : 0 <= T1 + 20 * JsDate.msPerDay < 2 ^ 53)
      by (unfold JsDate.msPerDay in *; lia).
    assert (Hts : 0 <= T1 < 2 ^ 53) by (unfold JsDate.msPerDay in *; lia).
    rewrite (Hnum _ [] (mkPoint T0 (Some 100)) (mkPoint T1 (Some 15)) 100 15);
      try reflexivity.
    + change (timestamp (mkPoint T1 (Some 15))) with T1. rewrite Hnext.
      cbn [JsDate.getTime].
      rewrite (sub_ofZ_exact (T1 + 30 * JsDate.msPerDay) T1)
        by (unfold JsDate.msPerDay in *; lia).
      rewrite (sub_ofZ_exact (T1 + 20 * JsDate.msPerDay) T1) by assumption.
      replace (T1 + 30 * JsDate.msPerDay - T1) with 2592000000
        by (unfold JsDate.msPerDay; lia).
      replace (T1 + 20 * JsDate.msPerDay - T1) with 1728000000
        by (unfold JsDate.msPerDay; lia).
      vm_compute. reflexivity.
    + change (timestamp (mkPoint T1 (Some 15))) with T1.
      change (7 * 24 * 3600 * 1000) with 604800000.
      rewrite (elapsed_lt_week _ T1 Hnow Hts).
      apply Z.ltb_ge. unfold JsDate.msPerDay. lia.
Qed.

(** C8: a missing count is read as 0 only where two points are taken; a
    single point whose count is missing makes the estimate [undefined],
    not 0. *)
Theorem estimate_single_point_missing_count (now T0 : Z) :
  estimate now [mkPoint T0 None] = Undefined
  /\ estimate now [mkPoint T0 None] <> Num (ofZ 0)
  /\ (forall T1, 0 <= T1 < 2 ^ 53 -> 0 <= now < 2 ^ 53 ->
                 now - T1 < 7 * 24 * 3600 * 1000 ->
                 estimate now [mkPoint T0 None; mkPoint T1 None] = Num (ofZ 0)).
Proof.
  split; [reflexivity|]. split; [discriminate|].
  intros T1 HT1 Hnow Hyoung. rewrite estimate_two_points. cbv zeta. simpl timestamp.
  change oneWeekMs with (ofZ 604800000).
  rewrite (elapsed_lt_week now T1 Hnow HT1).
  replace (now - T1 <? 604800000) with true by (symmetry; apply Z.ltb_lt; lia).
  reflexivity.
Qed.

End EstimateFacts.

(** C7 as stated fails: one week and 393600 seconds into February 2023,
    with counts 100 and 91, the quotient 2419200000 / 998400000 is rounded
    below 2.4230769..., its product with 91 falls just under 220.5 and the
    estimate is 160, while the formula of the claim gives 161 both in exact
    arithmetic and on Numbers. *)
Lemma estimate_differs_from_claimed_formula :
  let T1 := 1675209600000 in
  let now := T1 + 998400000 in
  Bcd.nextMonthDateOf Samples.utcZone T1 = Some (T1 + 28 * JsDate.msPerDay)
  /\ JsNumber.lt (JsNumber.sub (JsNumber.ofZ now) (JsNumber.ofZ T1)) Bcd.oneWeekMs
     = false
  /\ Bcd.estimatedUsersPerMonth Samples.utcZone now
       [Bcd.mkPoint 1672531200000 (Some 100); Bcd.mkPoint T1 (Some 91)]
     = Num (JsNumber.ofZ 160)
  /\ Bcd.specEstimateExact 100 91 T1 (T1 + 28 * JsDate.msPerDay) now = 161
  /\ Bcd.specEstimateNumber 100 91 T1 (T1 + 28 * JsDate.msPerDay) now
     = JsNumber.ofZ 161
  /\ JsNumber.ofZ 160 <> JsNumber.ofZ 161.
Proof. vm_compute. repeat split; try reflexivity. discriminate. Qed.

Lemma estimate_empty_or_single_point_witness :
  slice_neg2 [Bcd.mkPoint 1680307200000 (Some 100)]
  = [Bcd.mkPoint 1680307200000 (Some 100)]
  /\ Bcd.estimatedUsersPerMonth Samples.utcZone 1682035200000
       [Bcd.mkPoint 1680307200000 (Some 100)] = Num (JsNumber.ofZ 100).
Proof.
  split; [reflexivity|].
  exact (proj1 (proj2 (proj2 (estimate_empty_or_single_point Samples.utcZone 1682035200000)))
               [Bcd.mkPoint 1680307200000 (Some 100)]
               (Bcd.mkPoint 1680307200000 (Some 100)) 100 eq_refl eq_refl).
Defined.

Lemma estimate_young_month_is_previous_witness :
  0 <= 1680307200000 < 2 ^ 53 /\ 0 <= 1680480000000 < 2 ^ 53
  /\ 1680480000000 - 1680307200000 < 7 * 24 * 3600 * 1000
  /\ Bcd.estimatedUsersPerMonth Samples.utcZone 1680480000000
       ([] ++ [Bcd.mkPoint 1677628800000 (Some 100);
               Bcd.mkPoint 1680307200000 (Some 10)]) = Num (JsNumber.ofZ 100).
Proof.
  assert (Hts : 0 <= 1680307200000 < 2 ^ 53) by (split; [discriminate|reflexivity]).
  assert (Hnow : 0 <= 1680480000000 < 2 ^ 53) by (split; [discriminate|reflexivity]).
  assert (Hyoung : 1680480000000 - 1680307200000 < 7 * 24 * 3600 * 1000)
    by reflexivity.
  split; [exact Hts|]. split; [exact Hnow|]. split; [exact Hyoung|].
  exact (proj1 (estimate_young_month_is_previous Samples.utcZone)
               1680480000000 []
               (Bcd.mkPoint 1677628800000 (Some 100))
               (Bcd.mkPoint 1680307200000 (Some 10)) 100
               Hts Hnow Hyoung eq_refl).
Defined.

Lemma estimate_old_month_extrapolates_witness :
  0 <= 1680307200000 < 2 ^ 53 /\ 0 <= 1682035200000 < 2 ^ 53
  /\ 7 * 24 * 3600 * 1000 <= 1682035200000 - 1680307200000
  /\ Bcd.estimatedUsersPerMonth Samples.utcZone 1682035200000
       ([] ++ [Bcd.mkPoint 1677628800000 (Some 100);
               Bcd.mkPoint 1680307200000 (Some 15)]) = Num (JsNumber.ofZ 62).
Proof.
  assert (Hts : 0 <= 1680307200000 < 2 ^ 53) by (split; [discriminate|reflexivity]).
  assert (Hnow : 0 <= 1682035200000 < 2 ^ 53) by (split; [discriminate|reflexivity]).
  assert (Hold : 7 * 24 * 3600 * 1000 <= 1682035200000 - 1680307200000)
    by discriminate.
  split; [exact Hts|]. split; [exact Hnow|]. split; [exact Hold|].
  exact (proj1 (proj1 (estimate_old_month_extrapolates Samples.utcZone)
                      1682035200000 []
                      (Bcd.mkPoint 1677628800000 (Some 100))
                      (Bcd.mkPoint 1680307200000 (Some 15))
                      100 15 Hts Hnow Hold eq_refl eq_refl)).
Defined.

Lemma estimate_single_point_missing_count_witness :
  0 <= 1680307200000 < 2 ^ 53 /\ 0 <= 1680480000000 < 2 ^ 53
  /\ 1680480000000 - 1680307200000 < 7 * 24 * 3600 * 1000
  /\ Bcd.estimatedUsersPerMonth Samples.utcZone 1680480000000
       [Bcd.mkPoint 0 None; Bcd.mkPoint 1680307200000 None] = Num (JsNumber.ofZ 0).
Proof.
  assert (Hts : 0 <= 1680307200000 < 2 ^ 53) by (split; [discriminate|reflexivity]).
  assert (Hnow : 0 <= 1680480000000 < 2 ^ 53) by (split; [discriminate|reflexivity]).
  assert (Hyoung : 1680480000000 - 1680307200000 < 7 * 24 * 3600 * 1000)
    by reflexivity.
  split; [exact Hts|]. split; [exact Hnow|]. split; [exact Hyoung|].
  exact (proj2 (proj2 (estimate_single_point_missing_count
                         Samples.utcZone 1680480000000 0))
               1680307200000 Hts Hnow Hyoung).
Defined.

(** ** The dApp list *)

Section DAppsFacts.
Import Bcd.

Lemma someSlug_true (s : string) (l : list DAppsListItem) :
  someSlug s l = true <-> s ∈ map slug l.
Proof.
  unfold someSlug. rewrite existsb_exists, list_elem_of_In, in_map_iff.
  split.
  - intros [d [Hin Heq]]. apply String.eqb_eq in Heq. eauto.
  - intros [d [Heq Hin]]. exists d. split; [exact Hin|]. now apply String.eqb_eq.
Qed.

Lemma someSlug_false (s : string) (l : list DAppsListItem) :
  someSlug s l = false <-> s ∉ map slug l.
Proof.
  rewrite <- someSlug_true. destruct (someSlug s l); split; congruence.
Qed.

Lemma fold_pushUnique_snoc (acc pre : list DAppsListItem) (d : DAppsListItem) :
  fold_left pushUnique (pre ++ [d]) acc
  = pushUnique (fold_left pushUnique pre acc) d.
Proof. rewrite fold_left_app. reflexivity. Qed.

(** The slugs collected are those met so far. *)
Lemma fold_pushUnique_slugs (l acc : list DAppsListItem) (s : string) :
  s ∈ map slug (fold_left pushUnique l acc)
  <-> s ∈ map slug acc \/ s ∈ map slug l.
Proof.
  revert acc. induction l as [|d l IH]; intros acc; simpl.
  - rewrite elem_of_nil. tauto.
  - rewrite IH, elem_of_cons. unfold pushUnique.
    destruct (someSlug (slug d) acc) eqn:Hs; simpl.
    + apply someSlug_true in Hs.
      split; [tauto|]. intros [?|[->|?]]; tauto.
    + rewrite map_app, elem_of_app. simpl. rewrite list_elem_of_singleton.
      tauto.
Qed.

Lemma fold_pushUnique_NoDup (l acc : list DAppsListItem) :
  NoDup (map slug acc) -> NoDup (map slug (fold_left pushUnique l acc)).
Proof.
  revert acc. induction l as [|d l IH]; intros acc Hnd; simpl; [exact Hnd|].
  apply IH. unfold pushUnique.
  destruct (someSlug (slug d) acc) eqn:Hs; simpl; [exact Hnd|].
  apply someSlug_false in Hs.
  rewrite map_app. apply NoDup_app. split; [exact Hnd|]. split.
  - intros x Hx Hx'. simpl in Hx'. apply list_elem_of_singleton in Hx'.
    subst x. contradiction.
  - simpl. apply NoDup_singleton.
Qed.

Lemma fold_pushUnique_sublist (l acc : list DAppsListItem) :
  exists kept, fold_left pushUnique l acc = acc ++ kept /\ kept `sublist_of` l.
Proof.
  revert acc. induction l as [|d l IH]; intros acc; simpl.
  - exists []. rewrite app_nil_r. split; [reflexivity|constructor].
  - destruct (IH (pushUnique acc d)) as [kept [Heq Hsub]].
    unfold pushUnique in *. destruct (someSlug (slug d) acc); simpl in *.
    + exists kept. split; [exact Heq|]. now apply sublist_cons.
    + exists (d :: kept). rewrite Heq, <- app_assoc. split; [reflexivity|].
      now apply sublist_skip.
Qed.

Lemma uniqueBcdDApps_snoc (pre : list DAppsListItem) (d : DAppsListItem) :
  uniqueBcdDApps (pre ++ [d])
  = uniqueBcdDApps pre ++ (if someSlug (slug d) pre then [] else [d]).
Proof.
  unfold uniqueBcdDApps. rewrite fold_pushUnique_snoc.
  pose proof (fold_pushUnique_slugs pre [] (slug d)) as Hslugs.
  set (acc := fold_left pushUnique pre []) in *.
  unfold pushUnique.
  destruct (someSlug (slug d) acc) eqn:Hacc;
    destruct (someSlug (slug d) pre) eqn:Hpre; simpl;
    try rewrite app_nil_r; try reflexivity; exfalso.
  - apply someSlug_true in Hacc. apply someSlug_false in Hpre.
    apply Hslugs in Hacc. simpl in Hacc.
    rewrite elem_of_nil in Hacc. tauto.
  - apply someSlug_false in Hacc. apply someSlug_true in Hpre.
    apply Hacc, Hslugs. now right.
Qed.

(** C9, as amended: upstream dApps are kept in order, each one exactly
    when no earlier upstream dApp has its slug; a custom dApp is appended
    exactly when no upstream dApp has its slug; the result has at most one
    entry per slug provided the custom list has none twice, which holds of
    the empty list the source declares. *)
Theorem getDApps_one_entry_per_slug :
  (uniqueBcdDApps [] = []
   /\ forall pre d,
       uniqueBcdDApps (pre ++ [d])
       = uniqueBcdDApps pre ++ (if someSlug (slug d) pre then [] else [d]))
  /\ (forall bcdDApps, uniqueBcdDApps bcdDApps `sublist_of` bcdDApps)
  /\ (forall custom bcdDApps,
         exists appended,
           getDAppsWith custom bcdDApps = uniqueBcdDApps bcdDApps ++ appended
           /\ appended `sublist_of` custom
           /\ forall c, c ∈ appended
                        <-> c ∈ custom /\ slug c ∉ map slug bcdDApps)
  /\ (forall custom bcdDApps,
         NoDup (map slug custom) ->
         NoDup (map slug (getDAppsWith custom bcdDApps)))
  /\ (forall bcdDApps, NoDup (map slug (getDApps bcdDApps))).
Proof.
  assert (Hnd : forall custom bcdDApps,
             NoDup (map slug custom) ->
             NoDup (map slug (getDAppsWith custom bcdDApps))).
  { intros custom bcd Hc. unfold getDAppsWith. rewrite map_app.
    apply NoDup_app. split; [|split].
    - apply fold_pushUnique_NoDup. constructor.
    - intros s Hs Hs'. apply fold_pushUnique_slugs in Hs. simpl in Hs.
      rewrite elem_of_nil in Hs. destruct Hs as [[]|Hs].
      apply list_elem_of_In, in_map_iff in Hs'.
      destruct Hs' as [c [Heq Hin]]. apply filter_In in Hin.
      destruct Hin as [_ Hneg]. apply negb_true_iff, someSlug_false in Hneg.
      subst s. contradiction.
    - revert Hc. clear. induction custom as [|c custom IH]; simpl; intros Hc.
      + constructor.
      + apply NoDup_cons in Hc. destruct Hc as [Hnotin Hc].
        destruct (negb (someSlug (slug c) bcd)); simpl; [|now apply IH].
        apply NoDup_cons. split; [|now apply IH].
        intros Hin. apply Hnotin.
        apply list_elem_of_In, in_map_iff in Hin.
        destruct Hin as [c' [Heq Hin]]. apply filter_In in Hin.
        apply list_elem_of_In, in_map_iff. exists c'. tauto. }
  split; [split; [reflexivity|exact uniqueBcdDApps_snoc]|].
  split.
  { intros bcd. destruct (fold_pushUnique_sublist bcd []) as [kept [Heq Hsub]].
    unfold uniqueBcdDApps. rewrite Heq. exact Hsub. }
  split.
  { intros custom bcd.
    exists (List.filter (fun c => negb (someSlug (slug c) bcd)) custom).
    split; [reflexivity|]. split.
    - clear. induction custom as [|c custom IH]; simpl; [constructor|].
      destruct (negb (someSlug (slug c) bcd)).
      + now apply sublist_skip.
      + now apply sublist_cons.
    - intros c. rewrite list_elem_of_In, filter_In, negb_true_iff,
        someSlug_false, <- list_elem_of_In. reflexivity. }
  split; [exact Hnd|].
  intros bcd. apply Hnd. constructor.
Qed.

End DAppsFacts.

(** C9 as stated fails: two custom dApps sharing a slug that no upstream
    dApp has are both appended. *)
Lemma getDApps_custom_slug_twice :
  Bcd.getDAppsWith [Samples.dAppA; Samples.dAppB] [Samples.dAppC] = [Samples.dAppC; Samples.dAppA; Samples.dAppB]
  /\ ~ NoDup (map Bcd.slug (Bcd.getDAppsWith [Samples.dAppA; Samples.dAppB] [Samples.dAppC])).
Proof.
  split; [reflexivity|].
  intros Hnd. vm_compute in Hnd.
  apply NoDup_cons in Hnd. destruct Hnd as [_ Hnd].
  apply NoDup_cons in Hnd. destruct Hnd as [Hnotin _].
  apply Hnotin. apply list_elem_of_here.
Qed.

Lemma getDApps_one_entry_per_slug_witness :
  NoDup (map Bcd.slug [Samples.dAppA])
  /\ NoDup (map Bcd.slug (Bcd.getDAppsWith [Samples.dAppA] [Samples.dAppC; Samples.dAppC])).
Proof.
  assert (Hc : NoDup (map Bcd.slug [Samples.dAppA])) by (simpl; apply NoDup_singleton).
  split; [exact Hc|].
  exact (proj1 (proj2 (proj2 (proj2 getDApps_one_entry_per_slug)))
               [Samples.dAppA] [Samples.dAppC; Samples.dAppC] Hc).
Defined.

(** ** Notifications *)

Section NotificationFacts.
Import Notifications.
Variable JSON_parse : string -> option Notification.
Variable JSON_stringify : Notification -> string.
Variable Date_getTime : string -> option Z.

Abbreviation sortN := (sort Date_getTime).
Abbreviation expiredN := (expired Date_getTime).
Abbreviation wantedN := (wanted Date_getTime).
Abbreviation body := (loopBody JSON_stringify Date_getTime).
Abbreviation afterRemovals := (Notifications.afterRemovals JSON_stringify).

Lemma includes_true (ps : list PlatformType) (platform : PlatformType) :
  includes ps platform = true <-> platform ∈ ps.
Proof.
  unfold includes. rewrite existsb_exists, list_elem_of_In. split.
  - intros [q [Hin Heq]]. destruct platform, q; try discriminate; exact Hin.
  - intros Hin. exists platform. split; [exact Hin|]. now destruct platform.
Qed.

Lemma insertSorted_perm (x : Notification) (l : list Notification) :
  insertSorted Date_getTime x l ≡ₚ x :: l.
Proof.
  induction l as [|y ys IH]; simpl; [reflexivity|].
  destruct (compareFn Date_getTime x y <=? 0); [reflexivity|].
  rewrite IH. apply perm_swap.
Qed.

(** Sorting reorders, it neither drops nor adds a notification. *)
Lemma sort_perm (l : list Notification) : sortN l ≡ₚ l.
Proof.
  induction l as [|x xs IH]; simpl; [reflexivity|].
  unfold sort in *. simpl. rewrite insertSorted_perm. now rewrite IH.
Qed.

Lemma parseAll_Forall2 (data : list string) (parsed : list Notification) :
  parseAll JSON_parse data = Some parsed ->
  Forall2 (fun item n => JSON_parse item = Some n) data parsed.
Proof.
  revert parsed. induction data as [|item rest IH]; simpl; intros parsed Hp.
  - inversion Hp. constructor.
  - destruct (JSON_parse item) as [n|] eqn:Hn; [|discriminate].
    destruct (parseAll JSON_parse rest) as [ns|]; [|discriminate].
    inversion Hp. subst parsed. constructor; [exact Hn|]. now apply IH.
Qed.

(** When every stored text parses, [getNotifications] returns. *)
Lemma parseAll_total (data : list string) :
  (forall item, item ∈ data -> is_Some (JSON_parse item)) ->
  is_Some (parseAll JSON_parse data).
Proof.
  induction data as [|item rest IH]; simpl; intros Hall; [eauto|].
  destruct (Hall item (list_elem_of_here _ _)) as [n Hn]. rewrite Hn.
  destruct IH as [ns Hns].
  - intros it Hit. apply Hall. now apply list_elem_of_further.
  - rewrite Hns. eauto.
Qed.

Lemma getNotifications_returns (redis : list string) (now : Z)
      (platform : PlatformType) (startFromTime : Z) :
  (forall item, item ∈ redis -> is_Some (JSON_parse item)) ->
  is_Some (getNotifications JSON_parse JSON_stringify Date_getTime
                            redis now platform startFromTime).
Proof.
  intros Hall. unfold getNotifications.
  destruct (parseAll_total redis Hall) as [parsed ->].
  destruct (fold_left _ _ _). eauto.
Qed.

(** The loop removes the expired notifications and collects the wanted
    ones among the others. *)
Lemma loop_unfold (platform : PlatformType) (startFromTime now : Z)
      (ns : list Notification) (redis : list string) (result : list Notification) :
  fold_left (body platform startFromTime now) ns (redis, result)
  = (afterRemovals (List.filter (expiredN now) ns) redis,
     result ++ List.filter (fun n => negb (expiredN now n)
                                     && wantedN platform startFromTime now n) ns).
Proof.
  revert redis result. induction ns as [|n ns IH]; intros redis result; simpl.
  - now rewrite app_nil_r.
  - destruct (expiredN now n) eqn:He; simpl.
    + rewrite IH. reflexivity.
    + destruct (wantedN platform startFromTime now n) eqn:Hw; simpl.
      * rewrite IH, <- app_assoc. reflexivity.
      * rewrite IH. reflexivity.
Qed.

Lemma count_lrem1 (v x : string) (l : list string) :
  count_occ string_dec (lrem1 v l) x
  = if string_dec v x then Nat.pred (count_occ string_dec l x)
    else count_occ string_dec l x.
Proof.
  induction l as [|y ys IH]; simpl.
  - now destruct (string_dec v x).
  - destruct (String.eqb_spec y v) as [->|Hne].
    + destruct (string_dec v x); [reflexivity|reflexivity].
    + simpl. rewrite IH.
      destruct (string_dec y x) as [->|Hyx]; destruct (string_dec v x) as [->|Hvx];
        try reflexivity; try congruence.
Qed.

Lemma count_afterRemovals (ns : list Notification) (redis : list string) (x : string) :
  count_occ string_dec (afterRemovals ns redis) x
  = (count_occ string_dec redis x
     - count_occ string_dec (map JSON_stringify ns) x)%nat.
Proof.
  revert redis. induction ns as [|n ns IH]; intros redis; simpl.
  - lia.
  - unfold afterRemovals in *. simpl. rewrite IH, count_lrem1.
    destruct (string_dec (JSON_stringify n) x); lia.
Qed.



(** Each stored text that is what [JSON.stringify] gives for an expired
    notification is removed as often as it occurs. *)
Lemma removals_cover (now : Z) (data : list string) (parsed : list Notification)
      (item : string) (n : Notification) :
  Forall2 (fun it m => JSON_parse it = Some m) data parsed ->
  JSON_parse item = Some n -> JSON_stringify n = item -> expiredN now n = true ->
  (count_occ string_dec data item
   <= count_occ string_dec
        (map JSON_stringify (List.filter (expiredN now) parsed)) item)%nat.
Proof.
  intros Hall Hn Hcanon Hexp.
  induction Hall as [|it m data parsed Hit _ IH]; simpl; [lia|].
  destruct (string_dec it item) as [->|Hne].
  - assert (m = n) by congruence. subst m. rewrite Hexp. simpl.
    rewrite Hcanon. destruct (string_dec item item); [lia|congruence].
  - destruct (expiredN now m); simpl; [|exact IH].
    destruct (string_dec (JSON_stringify m) item); lia.
Qed.


End NotificationFacts.


(** ** The data provider *)

Section ProviderFacts.
Import Provider.
Context {K : Type} `{Countable K} {T E : Type}.
Implicit Types (w : World K T) (p : DataProvider K T) (k : K)
         (ev : Event K T E) (evs : list (Event K T E)).

Lemma stateOf_setState p k st k' :
  stateOf (setState p k st) k' = if decide (k = k') then st else stateOf p k'.
Proof.
  unfold stateOf, setState. simpl. rewrite lookup_insert.
  now case_decide.
Qed.

Lemma stateOf_setState_eq p k st : stateOf (setState p k st) k = st.
Proof. rewrite stateOf_setState. now case_decide. Qed.

Lemma stateOf_setState_ne p k st k' :
  k <> k' -> stateOf (setState p k st) k' = stateOf p k'.
Proof. intros Hne. rewrite stateOf_setState. now case_decide. Qed.

Lemma keyOf_elem (i : FetchId) (k : K) (l : list (FetchId * K)) :
  keyOf i l = Some k -> (i, k) ∈ l.
Proof.
  induction l as [|[j k'] l IH]; simpl; [discriminate|].
  destruct (Nat.eqb_spec i j) as [->|Hne].
  - intros [= ->]. apply list_elem_of_here.
  - intros Hk. apply list_elem_of_further. now apply IH.
Qed.

Lemma elem_keyOf (i : FetchId) (k : K) (l : list (FetchId * K)) :
  NoDup (map fst l) -> (i, k) ∈ l -> keyOf i l = Some k.
Proof.
  induction l as [|[j k'] l IH]; simpl; intros Hnd Hin.
  - now apply elem_of_nil in Hin.
  - apply NoDup_cons in Hnd. destruct Hnd as [Hnotin Hnd].
    apply elem_of_cons in Hin. destruct Hin as [[= -> ->]|Hin].
    + now rewrite Nat.eqb_refl.
    + destruct (Nat.eqb_spec i j) as [->|Hne]; [|now apply IH].
      exfalso. apply Hnotin. apply list_elem_of_In, in_map_iff.
      exists (j, k). split; [reflexivity|now apply list_elem_of_In].
Qed.

Lemma outstanding_elem w k i :
  (i, k) ∈ pending w <-> (i, k) ∈ outstanding w k.
Proof.
  unfold outstanding. rewrite !list_elem_of_In, filter_In. simpl.
  rewrite bool_decide_eq_true. tauto.
Qed.

(** Under the invariant, a pending fetch is the one in flight for its key. *)
Lemma pending_inFlight interval w k i :
  Inv interval w -> (i, k) ∈ pending w ->
  exists f, inFlight (stateOf (provider w) k) = Some f /\ fetchId f = i.
Proof.
  intros Hinv Hin. apply outstanding_elem in Hin.
  rewrite (inv_outstanding _ _ Hinv) in Hin. unfold inFlightCalls in Hin.
  destruct (inFlight (stateOf (provider w) k)) as [f|].
  - exists f. split; [reflexivity|].
    apply list_elem_of_singleton in Hin. congruence.
  - now apply elem_of_nil in Hin.
Qed.

Lemma inFlight_pending interval w k f :
  Inv interval w -> inFlight (stateOf (provider w) k) = Some f ->
  (fetchId f, k) ∈ pending w.
Proof.
  intros Hinv Hf. apply outstanding_elem.
  rewrite (inv_outstanding _ _ Hinv). unfold inFlightCalls. rewrite Hf.
  apply list_elem_of_here.
Qed.

Lemma init_inv interval : Inv interval (init (K:=K) (T:=T) interval).
Proof.
  split; simpl; try reflexivity.
  - constructor.
  - intros i k Hin. now apply elem_of_nil in Hin.
  - intros k f e Hf. unfold stateOf in Hf. simpl in Hf.
    rewrite lookup_empty in Hf. discriminate.
  - intros k. unfold stateOf, everSucceeded. simpl. rewrite lookup_empty. simpl.
    split; [intros [? ?]; discriminate|discriminate].
Qed.

Lemma outstanding_app_one w k i k' :
  List.filter (fun p : FetchId * K => bool_decide (snd p = k')) (pending w ++ [(i, k)])
  = outstanding w k' ++ (if decide (k = k') then [(i, k)] else []).
Proof.
  rewrite List.filter_app. unfold outstanding. simpl.
  case_decide as Hk.
  - now rewrite bool_decide_eq_true_2.
  - now rewrite bool_decide_eq_false_2.
Qed.

(** Starting a fetch for a key with none in flight keeps the invariant. *)
Lemma start_fetch_inv interval w k (ws : list Caller) :
  Inv interval w ->
  inFlight (stateOf (provider w) k) = None ->
  (forall e, entry (stateOf (provider w) k) = Some e ->
             interval <= clock w - fetchedAt e) ->
  Inv interval
      {| provider := setState (provider w) k
                       {| entry := entry (stateOf (provider w) k);
                          inFlight := Some {| fetchId := nextId w; awaiting := ws |} |};
         clock := clock w;
         pending := pending w ++ [(nextId w, k)];
         nextId := (nextId w + 1)%nat;
         settled := settled w |}.
Proof.
  intros Hinv Hnone Hstale. split; simpl.
  - apply (inv_interval _ _ Hinv).
  - intros k'. unfold outstanding, inFlightCalls. simpl.
    rewrite outstanding_app_one, stateOf_setState.
    rewrite (inv_outstanding _ _ Hinv). unfold inFlightCalls.
    case_decide as Hk.
    + subst k'. rewrite Hnone. reflexivity.
    + now rewrite app_nil_r.
  - rewrite map_app. simpl. apply NoDup_app. split; [apply (inv_ids _ _ Hinv)|].
    split; [|apply NoDup_singleton].
    intros i Hi Hi'. apply list_elem_of_singleton in Hi'. subst i.
    apply list_elem_of_In, in_map_iff in Hi. destruct Hi as [[j k'] [Hj Hin]].
    simpl in Hj. subst j. apply list_elem_of_In in Hin.
    pose proof (inv_fresh_ids _ _ Hinv _ _ Hin). lia.
  - intros i k' Hin. apply elem_of_app in Hin. destruct Hin as [Hin|Hin].
    + pose proof (inv_fresh_ids _ _ Hinv _ _ Hin). lia.
    + apply list_elem_of_singleton in Hin. inversion Hin. lia.
  - intros k' f e. rewrite stateOf_setState. case_decide as Hk.
    + simpl. intros _ He. now apply Hstale.
    + apply (inv_stale _ _ Hinv).
  - intros k'. unfold everSucceeded. simpl. rewrite stateOf_setState.
    case_decide as Hk; [subst k'|]; apply (inv_entry _ _ Hinv).
Qed.

(** A caller joining the fetch in flight keeps the invariant. *)
Lemma join_fetch_inv interval w k f (c : Caller) :
  Inv interval w ->
  inFlight (stateOf (provider w) k) = Some f ->
  Inv interval
      {| provider := setState (provider w) k
                       {| entry := entry (stateOf (provider w) k);
                          inFlight := Some {| fetchId := fetchId f;
                                              awaiting := awaiting f ++ [c] |} |};
         clock := clock w;
         pending := pending w;
         nextId := nextId w;
         settled := settled w |}.
Proof.
  intros Hinv Hf. split; simpl.
  - apply (inv_interval _ _ Hinv).
  - intros k'. unfold outstanding, inFlightCalls. simpl.
    rewrite stateOf_setState.
    pose proof (inv_outstanding _ _ Hinv k') as Hout.
    unfold outstanding, inFlightCalls in Hout. rewrite Hout.
    case_decide as Hk; [subst k'; now rewrite Hf|reflexivity].
  - apply (inv_ids _ _ Hinv).
  - apply (inv_fresh_ids _ _ Hinv).
  - intros k' f' e. rewrite stateOf_setState. case_decide as Hk.
    + subst k'. simpl. intros _ He. now apply (inv_stale _ _ Hinv k f e).
    + apply (inv_stale _ _ Hinv).
  - intros k'. unfold everSucceeded. simpl. rewrite stateOf_setState.
    case_decide as Hk; [subst k'|]; apply (inv_entry _ _ Hinv).
Qed.

Lemma getState_fresh p now i c k e :
  entry (stateOf p k) = Some e ->
  now - fetchedAt e < refreshInterval p ->
  getState (E:=E) p now i c k = (p, [Return c (Data (value e))]).
Proof.
  intros He Hfresh. unfold getState. rewrite He.
  destruct (Z.ltb_spec (now - fetchedAt e) (refreshInterval p)); [reflexivity|lia].
Qed.

Lemma call_inv interval w c k :
  Inv interval w -> Inv interval (step (E:=E) w (Call c k)).1.
Proof.
  intros Hinv. unfold step, getState.
  pose proof (inv_interval _ _ Hinv) as HR.
  destruct (entry (stateOf (provider w) k)) as [e|] eqn:He.
  - destruct (Z.ltb_spec (clock w - fetchedAt e) (refreshInterval (provider w)))
      as [Hfresh|Hstale].
    + simpl. rewrite app_nil_r, Nat.add_0_r. now destruct w.
    + destruct (inFlight (stateOf (provider w) k)) as [f|] eqn:Hf; simpl.
      * rewrite app_nil_r, Nat.add_0_r, <- He. now apply join_fetch_inv.
      * rewrite <- He. apply start_fetch_inv; [exact Hinv|exact Hf|].
        intros e' He'. assert (e' = e) by congruence. subst e'. lia.
  - destruct (inFlight (stateOf (provider w) k)) as [f|] eqn:Hf; simpl.
    + rewrite app_nil_r, Nat.add_0_r, <- He. now apply join_fetch_inv.
    + rewrite <- He. apply start_fetch_inv; [exact Hinv|exact Hf|].
      intros e' He'. congruence.
Qed.

Lemma removeId_elem (i j : FetchId) (k : K) (l : list (FetchId * K)) :
  (j, k) ∈ removeId i l <-> (j, k) ∈ l /\ i <> j.
Proof.
  unfold removeId. rewrite !list_elem_of_In, filter_In. simpl.
  rewrite negb_true_iff, Nat.eqb_neq. tauto.
Qed.

Lemma removeId_NoDup (i : FetchId) (l : list (FetchId * K)) :
  NoDup (map fst l) -> NoDup (map fst (removeId i l)).
Proof.
  induction l as [|[j k] l IH]; simpl; intros Hnd; [constructor|].
  apply NoDup_cons in Hnd. destruct Hnd as [Hnotin Hnd].
  destruct (negb (i =? j)%nat); simpl; [|now apply IH].
  apply NoDup_cons. split; [|now apply IH].
  intros Hin. apply Hnotin.
  apply list_elem_of_In, in_map_iff in Hin. destruct Hin as [[j' k'] [Hj Hin]].
  simpl in Hj. subst j'. apply list_elem_of_In, removeId_elem in Hin.
  apply list_elem_of_In, in_map_iff. exists (j, k').
  split; [reflexivity|]. apply list_elem_of_In. tauto.
Qed.

Lemma outstanding_removeId w i k' :
  List.filter (fun p : FetchId * K => bool_decide (snd p = k')) (removeId i (pending w))
  = removeId i (outstanding w k').
Proof.
  unfold outstanding, removeId.
  induction (pending w) as [|[j k] l IH]; simpl; [reflexivity|].
  destruct (negb (i =? j)%nat) eqn:Hij, (bool_decide (k = k')) eqn:Hk; simpl;
    rewrite ?Hij, ?Hk, IH; reflexivity.
Qed.

Lemma everSucceeded_snoc w k i k' (b : bool) clk pend next p :
  everSucceeded {| provider := p; clock := clk; pending := pend; nextId := next;
                   settled := settled w ++ [(i, k, b)] |} k'
  = everSucceeded w k' || (bool_decide (k = k') && b).
Proof.
  unfold everSucceeded. simpl. rewrite existsb_app. simpl.
  now rewrite orb_false_r.
Qed.

(** The settlement of a pending fetch keeps the invariant. *)
Lemma settle_inv interval w i (outcome : T + E) :
  Inv interval w -> Inv interval (settleWorld w i outcome).1.
Proof.
  intros Hinv. unfold settleWorld.
  destruct (keyOf i (pending w)) as [k|] eqn:Hkey; [|exact Hinv].
  pose proof (keyOf_elem _ _ _ Hkey) as Hin.
  destruct (pending_inFlight _ _ _ _ Hinv Hin) as [f [Hf Hfi]].
  assert (Hsplit : exists st b,
             (let '(p', effs) := settle (provider w) (clock w) k outcome in
              ({| provider := p'; clock := clock w;
                  pending := removeId i (pending w); nextId := nextId w;
                  settled := settled w ++ [(i, k, match outcome with
                                                  | inl _ => true
                                                  | inr _ => false
                                                  end)] |}, effs)).1
             = {| provider := setState (provider w) k st; clock := clock w;
                  pending := removeId i (pending w); nextId := nextId w;
                  settled := settled w ++ [(i, k, b)] |}
             /\ inFlight st = None
             /\ (is_Some (entry st)
                 <-> everSucceeded w k || b = true)).
  { destruct outcome as [v|err]; simpl.
    - eexists _, true. split; [reflexivity|]. split; [reflexivity|]. simpl.
      rewrite orb_true_r. split; eauto.
    - eexists _, false. split; [reflexivity|]. split; [reflexivity|]. simpl.
      rewrite orb_false_r. apply (inv_entry _ _ Hinv). }
  destruct Hsplit as [st [b [-> [Hnone Hentry]]]].
  split; simpl.
  - apply (inv_interval _ _ Hinv).
  - intros k'. unfold outstanding at 1, inFlightCalls. simpl.
    rewrite outstanding_removeId, stateOf_setState.
    rewrite (inv_outstanding _ _ Hinv). unfold inFlightCalls.
    case_decide as Hk.
    + subst k'. rewrite Hf, Hnone. simpl. rewrite Hfi, Nat.eqb_refl. reflexivity.
    + destruct (inFlight (stateOf (provider w) k')) as [f'|] eqn:Hf'; [|reflexivity].
      simpl. destruct (Nat.eqb_spec i (fetchId f')) as [Heq|Hne]; [|reflexivity].
      exfalso. apply Hk.
      pose proof (inFlight_pending _ _ _ _ Hinv Hf') as Hin'.
      rewrite <- Heq in Hin'.
      pose proof (elem_keyOf _ _ _ (inv_ids _ _ Hinv) Hin') as Hkey'.
      congruence.
  - apply removeId_NoDup, (inv_ids _ _ Hinv).
  - intros j k' Hj. apply removeId_elem in Hj.
    apply (inv_fresh_ids _ _ Hinv j k'). tauto.
  - intros k' f' e. rewrite stateOf_setState. case_decide as Hk.
    + rewrite Hnone. discriminate.
    + apply (inv_stale _ _ Hinv).
  - intros k'. rewrite everSucceeded_snoc, stateOf_setState.
    case_decide as Hk.
    + subst k'. rewrite bool_decide_eq_true_2 by reflexivity. exact Hentry.
    + rewrite bool_decide_eq_false_2 by exact Hk. simpl. rewrite orb_false_r.
      apply (inv_entry _ _ Hinv).
Qed.

Lemma tick_inv interval w (d : N) :
  Inv interval w -> Inv interval (step (E:=E) w (Tick d)).1.
Proof.
  intros Hinv. split; simpl; try apply Hinv.
  intros k f e Hf He. pose proof (inv_stale _ _ Hinv k f e Hf He). lia.
Qed.

Lemma step_inv interval w ev :
  Inv interval w -> Inv interval (step w ev).1.
Proof.
  destruct ev as [c k|i v|i err|d]; intros Hinv.
  - now apply call_inv.
  - now apply settle_inv.
  - now apply settle_inv.
  - now apply tick_inv.
Qed.

Lemma run_cons w ev evs :
  run w (ev :: evs)
  = ((run (step w ev).1 evs).1, (step w ev).2 ++ (run (step w ev).1 evs).2).
Proof.
  simpl. destruct (step w ev) as [w1 effs1]. simpl.
  now destruct (run w1 evs) as [w2 effs2].
Qed.

Lemma run_inv interval w evs :
  Inv interval w -> Inv interval (run w evs).1.
Proof.
  revert w. induction evs as [|ev evs IH]; intros w Hinv; [exact Hinv|].
  rewrite run_cons. simpl. apply IH. now apply step_inv.
Qed.

(** Every world reached from the initial one satisfies the invariant. *)
Lemma reachable_inv interval evs :
  Inv interval (run (init interval) evs).1.
Proof. apply run_inv, init_inv. Qed.

Lemma world_eta w :
  {| provider := provider w; clock := clock w; pending := pending w ++ [];
     nextId := (nextId w + 0)%nat; settled := settled w |} = w.
Proof. destruct w. simpl. now rewrite app_nil_r, Nat.add_0_r. Qed.

(** A call on a fresh entry changes nothing and answers at once. *)
Lemma call_fresh w c k e :
  entry (stateOf (provider w) k) = Some e ->
  clock w - fetchedAt e < refreshInterval (provider w) ->
  step (E:=E) w (Call c k) = (w, [Return c (Data (value e))]).
Proof.
  intros He Hfresh. unfold step.
  rewrite (getState_fresh _ _ _ _ _ e He Hfresh). simpl.
  now rewrite world_eta.
Qed.

(** A call joins the fetch in flight, if the invariant holds. *)
Lemma call_joins interval w c k f :
  Inv interval w ->
  inFlight (stateOf (provider w) k) = Some f ->
  exists w', step (E:=E) w (Call c k) = (w', [])
             /\ pending w' = pending w
             /\ inFlight (stateOf (provider w') k)
                = Some {| fetchId := fetchId f; awaiting := awaiting f ++ [c] |}.
Proof.
  intros Hinv Hf. unfold step, getState. rewrite Hf.
  pose proof (inv_interval _ _ Hinv) as HR.
  destruct (entry (stateOf (provider w) k)) as [e|] eqn:He.
  - pose proof (inv_stale _ _ Hinv k f e Hf He) as Hstale.
    destruct (Z.ltb_spec (clock w - fetchedAt e) (refreshInterval (provider w)));
      [lia|].
    eexists. split; [reflexivity|]. simpl.
    split; [apply app_nil_r|]. now rewrite stateOf_setState_eq.
  - eexists. split; [reflexivity|]. simpl.
    split; [apply app_nil_r|]. now rewrite stateOf_setState_eq.
Qed.

(** A call on a key with nothing fresh and nothing in flight starts the
    one fetch. *)
Lemma call_starts w c k :
  inFlight (stateOf (provider w) k) = None ->
  (forall e, entry (stateOf (provider w) k) = Some e ->
             refreshInterval (provider w) <= clock w - fetchedAt e) ->
  (step (E:=E) w (Call c k)).2
  = Fetch (nextId w) k
    :: match entry (stateOf (provider w) k) with
       | Some e => [Return c (Data (value e))]
       | None => []
       end.
Proof.
  intros Hnone Hstale. unfold step, getState. rewrite Hnone.
  destruct (entry (stateOf (provider w) k)) as [e|] eqn:He; [|reflexivity].
  specialize (Hstale e eq_refl).
  destruct (Z.ltb_spec (clock w - fetchedAt e) (refreshInterval (provider w)));
    [lia|reflexivity].
Qed.

Lemma settle_effects w i k f (outcome : T + E) :
  keyOf i (pending w) = Some k ->
  inFlight (stateOf (provider w) k) = Some f ->
  (settleWorld w i outcome).2
  = map (fun c => Return c match outcome with
                           | inl v => Data v
                           | inr err => Error err
                           end) (awaiting f).
Proof.
  intros Hkey Hf. unfold settleWorld, settle. rewrite Hkey, Hf.
  now destruct outcome.
Qed.

Lemma settle_state w i k (outcome : T + E) :
  keyOf i (pending w) = Some k ->
  stateOf (provider (settleWorld w i outcome).1) k
  = {| entry := match outcome with
                | inl v => Some {| value := v; fetchedAt := clock w |}
                | inr _ => entry (stateOf (provider w) k)
                end;
       inFlight := None |}
  /\ clock (settleWorld w i outcome).1 = clock w
  /\ nextId (settleWorld w i outcome).1 = nextId w
  /\ refreshInterval (provider (settleWorld w i outcome).1)
     = refreshInterval (provider w).
Proof.
  intros Hkey. unfold settleWorld, settle. rewrite Hkey.
  destruct outcome; simpl; now rewrite stateOf_setState_eq.
Qed.

(** C1: in every world reached from the initial one, at most one fetch
    call per key is outstanding; a caller arriving while one is
    outstanding makes no fetch call and gets no answer yet but joins the
    callers awaiting that fetch; when the fetch settles, all of them get
    the same value, or the same error. *)
Theorem single_flight (interval : Z) evs k :
  let w := (run (init interval) evs).1 in
  (length (outstanding w k) <= 1)%nat
  /\ forall i, (i, k) ∈ pending w ->
       exists f,
         inFlight (stateOf (provider w) k) = Some f /\ fetchId f = i
         /\ (forall c, exists w',
                step (E:=E) w (Call c k) = (w', [])
                /\ pending w' = pending w
                /\ inFlight (stateOf (provider w') k)
                   = Some {| fetchId := i; awaiting := awaiting f ++ [c] |})
         /\ (forall v : T, (step (E:=E) w (Resolve i v)).2
                       = map (fun c => Return c (Data v)) (awaiting f))
         /\ (forall err : E, (step w (Reject i err)).2
                         = map (fun c => Return c (Error err)) (awaiting f)).
Proof.
  intros w. pose proof (reachable_inv interval evs) as Hinv. fold w in Hinv.
  split.
  - rewrite (inv_outstanding _ _ Hinv). unfold inFlightCalls.
    destruct (inFlight (stateOf (provider w) k)); simpl; lia.
  - intros i Hin.
    destruct (pending_inFlight _ _ _ _ Hinv Hin) as [f [Hf Hfi]].
    pose proof (elem_keyOf _ _ _ (inv_ids _ _ Hinv) Hin) as Hkey.
    exists f. split; [exact Hf|]. split; [exact Hfi|]. split; [|split].
    + intros c. subst i. now apply (call_joins interval).
    + intros v. apply (settle_effects w i k f (inl v) Hkey Hf).
    + intros err. apply (settle_effects w i k f (inr err) Hkey Hf).
Qed.

Lemma elapsed_nonneg evs : 0 <= elapsed evs.
Proof.
  induction evs as [|[c k|i v|i err|d] evs IH]; simpl; lia.
Qed.

(** What a call on another key leaves alone. *)
Lemma call_other w c k k' :
  k' <> k ->
  stateOf (provider (step (E:=E) w (Call c k')).1) k = stateOf (provider w) k
  /\ clock (step (E:=E) w (Call c k')).1 = clock w.
Proof.
  intros Hne. unfold step, getState.
  destruct (entry (stateOf (provider w) k')) as [e|];
    [destruct (clock w - fetchedAt e <? refreshInterval (provider w))|];
    try destruct (inFlight (stateOf (provider w) k')) as [f|]; simpl;
    rewrite ?stateOf_setState_ne by exact Hne; split; reflexivity.
Qed.

Lemma settle_other w i k k' (outcome : T + E) :
  keyOf i (pending w) = Some k' -> k' <> k ->
  stateOf (provider (settleWorld w i outcome).1) k = stateOf (provider w) k.
Proof.
  intros Hkey Hne. unfold settleWorld, settle. rewrite Hkey.
  destruct outcome; simpl; now rewrite stateOf_setState_ne.
Qed.

Lemma settle_clock w i (outcome : T + E) :
  clock (settleWorld w i outcome).1 = clock w.
Proof.
  unfold settleWorld. destruct (keyOf i (pending w)); [|reflexivity].
  now destruct (settle (provider w) (clock w) k outcome).
Qed.

(** While an entry is fresh, no event replaces it. *)
Lemma fresh_step interval w ev k e :
  Inv interval w ->
  entry (stateOf (provider w) k) = Some e ->
  clock w - fetchedAt e + elapsed [ev] < interval ->
  entry (stateOf (provider (step w ev).1) k) = Some e
  /\ clock (step w ev).1 = clock w + elapsed [ev].
Proof.
  intros Hinv He Hfresh.
  assert (Hidle : inFlight (stateOf (provider w) k) = None).
  { destruct (inFlight (stateOf (provider w) k)) as [f|] eqn:Hf; [|reflexivity].
    pose proof (inv_stale _ _ Hinv k f e Hf He).
    pose proof (elapsed_nonneg [ev]). lia. }
  assert (Hsettle : forall i (outcome : T + E),
             entry (stateOf (provider (settleWorld w i outcome).1) k) = Some e).
  { intros i outcome.
    destruct (keyOf i (pending w)) as [k'|] eqn:Hkey.
    - destruct (decide (k' = k)) as [->|Hne].
      + apply keyOf_elem in Hkey.
        destruct (pending_inFlight _ _ _ _ Hinv Hkey) as [f [Hf _]]. congruence.
      + now rewrite (settle_other w i k k' outcome Hkey Hne).
    - unfold settleWorld. now rewrite Hkey. }
  destruct ev as [c k'|i v|i err|d].
  - destruct (decide (k' = k)) as [->|Hne].
    + rewrite (call_fresh w c k e He).
      * simpl. split; [exact He|lia].
      * rewrite (inv_interval _ _ Hinv). simpl in Hfresh. lia.
    + destruct (call_other w c k k' Hne) as [-> ->]. simpl. split; [exact He|lia].
  - simpl. rewrite settle_clock. split; [apply Hsettle|lia].
  - simpl. rewrite settle_clock. split; [apply Hsettle|lia].
  - simpl. split; [exact He|lia].
Qed.

Lemma fresh_run interval w evs k e :
  Inv interval w ->
  entry (stateOf (provider w) k) = Some e ->
  clock w - fetchedAt e + elapsed evs < interval ->
  entry (stateOf (provider (run w evs).1) k) = Some e
  /\ clock (run w evs).1 - fetchedAt e < interval.
Proof.
  revert w. induction evs as [|ev evs IH]; intros w Hinv He Hfresh.
  - simpl in *. split; [exact He|lia].
  - rewrite run_cons. simpl.
    assert (Hev : elapsed (ev :: evs) = elapsed [ev] + elapsed evs)
      by (destruct ev; simpl; lia).
    pose proof (elapsed_nonneg evs) as Hpos.
    destruct (fresh_step interval w ev k e Hinv He) as [He1 Hclock1]; [lia|].
    apply IH; [now apply step_inv|exact He1|lia].
Qed.

(** C2: a call that finds an entry younger than the refresh interval
    returns its value and makes no fetch call; after such a call, whatever
    happens within the window, a second call returns the same value and
    makes no fetch call either; likewise when the first call was answered
    by a fetch that resolved less than the interval ago. *)
Theorem fresh_entry_served_without_fetch :
  (forall p now i c k e,
      entry (stateOf p k) = Some e ->
      now - fetchedAt e < refreshInterval p ->
      getState (E:=E) p now i c k = (p, [Return c (Data (value e))]))
  /\ (forall (interval : Z) evs evs' k e c1 c2,
         let w := (run (init interval) evs).1 in
         let w' := (run w evs').1 in
         entry (stateOf (provider w) k) = Some e ->
         clock w - fetchedAt e + elapsed evs' < interval ->
         step (E:=E) w (Call c1 k) = (w, [Return c1 (Data (value e))])
         /\ step (E:=E) w' (Call c2 k) = (w', [Return c2 (Data (value e))])
         /\ fetchesOf (step (E:=E) w' (Call c2 k)).2 = [])
  /\ (forall (interval : Z) evs evs' k i (v : T) c1 c2,
         let w := (run (init interval) evs).1 in
         let w1 := (step (E:=E) w (Resolve i v)).1 in
         let w' := (run w1 evs').1 in
         (i, k) ∈ pending w ->
         (exists f, inFlight (stateOf (provider w) k) = Some f /\ c1 ∈ awaiting f) ->
         elapsed evs' < interval ->
         Return c1 (Data v) ∈ (step (E:=E) w (Resolve i v)).2
         /\ step (E:=E) w' (Call c2 k) = (w', [Return c2 (Data v)])).
Proof.
  split; [exact getState_fresh|]. split; cycle 1.
  { intros interval evs evs' k i v c1 c2 w w1 w' Hin [f [Hf Hc1]] Hwin.
    pose proof (reachable_inv interval evs) as Hinv. fold w in Hinv.
    pose proof (elem_keyOf _ _ _ (inv_ids _ _ Hinv) Hin) as Hkey.
    assert (Hinv1 : Inv interval w1)
      by (apply (step_inv interval w (Resolve i v) Hinv)).
    destruct (settle_state w i k (inl v) Hkey) as [Hst [Hclk [_ _]]].
    change (settleWorld w i (inl v)).1 with w1 in Hst, Hclk.
    split.
    - change (step w (Resolve i v)).2 with (settleWorld w i (inl v : T + E)).2.
      rewrite (settle_effects w i k f (inl v) Hkey Hf).
      apply list_elem_of_In, in_map_iff. exists c1.
      split; [reflexivity|now apply list_elem_of_In].
    - destruct (fresh_run interval w1 evs' k
                          {| value := v; fetchedAt := clock w |} Hinv1)
        as [He' Hfresh'].
      + now rewrite Hst.
      + simpl. rewrite Hclk. lia.
      + fold w' in He', Hfresh'.
        assert (Hinv' : Inv interval w') by now apply run_inv.
        rewrite (call_fresh w' c2 k _ He'); [reflexivity|].
        now rewrite (inv_interval _ _ Hinv'). }
  intros interval evs evs' k e c1 c2 w w' He Hfresh.
  pose proof (reachable_inv interval evs) as Hinv. fold w in Hinv.
  pose proof (elapsed_nonneg evs') as Hpos.
  destruct (fresh_run interval w evs' k e Hinv He Hfresh) as [He' Hfresh'].
  fold w' in He', Hfresh'.
  assert (Hinv' : Inv interval w') by now apply run_inv.
  assert (H2 : step (E:=E) w' (Call c2 k) = (w', [Return c2 (Data (value e))])).
  { apply call_fresh; [exact He'|]. now rewrite (inv_interval _ _ Hinv'). }
  split; [|split; [exact H2|now rewrite H2]].
  apply call_fresh; [exact He|]. rewrite (inv_interval _ _ Hinv). lia.
Qed.

(** C3: when the fetch of a key fails, the in-flight record is cleared,
    every awaiting caller gets the error, and the entry of the key is as it
    was; the next call for the key, whenever it comes, makes exactly one
    fetch call and is not answered with an error. *)
Theorem failed_fetch_leaves_cache (interval : Z) evs k i (err : E) :
  let w := (run (init interval) evs).1 in
  let w1 := (step w (Reject i err)).1 in
  (i, k) ∈ pending w ->
  (exists f, inFlight (stateOf (provider w) k) = Some f
             /\ (step w (Reject i err)).2
                = map (fun c => Return c (Error err)) (awaiting f))
  /\ inFlight (stateOf (provider w1) k) = None
  /\ entry (stateOf (provider w1) k) = entry (stateOf (provider w) k)
  /\ outstanding w1 k = []
  /\ forall d c,
       let w2 := (step (E:=E) w1 (Tick d)).1 in
       fetchesOf (step (E:=E) w2 (Call c k)).2 = [(nextId w1, k)]
       /\ outstanding (step (E:=E) w2 (Call c k)).1 k = [(nextId w1, k)]
       /\ forall e', Return c (Error e') ∉ (step (E:=E) w2 (Call c k)).2.
Proof.
  intros w w1 Hin.
  pose proof (reachable_inv interval evs) as Hinv. fold w in Hinv.
  destruct (pending_inFlight _ _ _ _ Hinv Hin) as [f [Hf Hfi]].
  pose proof (elem_keyOf _ _ _ (inv_ids _ _ Hinv) Hin) as Hkey.
  assert (Hinv1 : Inv interval w1) by (apply (step_inv interval w (Reject i err) Hinv)).
  destruct (settle_state w i k (inr err) Hkey) as [Hst [Hclk [Hnext HR]]].
  change (settleWorld w i (inr err)).1 with w1 in Hst, Hclk, Hnext, HR.
  split; [exists f; split; [exact Hf|apply (settle_effects w i k f (inr err) Hkey Hf)]|].
  split; [now rewrite Hst|]. split; [now rewrite Hst|].
  split; [rewrite (inv_outstanding _ _ Hinv1); unfold inFlightCalls; now rewrite Hst|].
  intros d c w2.
  assert (Hinv2 : Inv interval w2) by (apply (step_inv interval w1 (Tick d) Hinv1)).
  assert (Hnone : inFlight (stateOf (provider w2) k) = None)
    by (simpl; now rewrite Hst).
  assert (Hstale : forall e, entry (stateOf (provider w2) k) = Some e ->
                             refreshInterval (provider w2) <= clock w2 - fetchedAt e).
  { intros e He. simpl in *. rewrite Hst in He. simpl in He.
    pose proof (inv_stale _ _ Hinv k f e Hf He).
    rewrite HR, (inv_interval _ _ Hinv), Hclk. lia. }
  pose proof (call_starts w2 c k Hnone Hstale) as Heffs.
  assert (Hw2 : nextId w2 = nextId w1) by reflexivity.
  rewrite Hw2 in Heffs.
  split; [|split].
  - rewrite Heffs. now destruct (entry (stateOf (provider w2) k)).
  - pose proof (step_inv interval w2 (Call c k) Hinv2) as Hinv3.
    rewrite (inv_outstanding _ _ Hinv3). unfold inFlightCalls, step, getState.
    rewrite Hnone.
    destruct (entry (stateOf (provider w2) k)) as [e|] eqn:He.
    + specialize (Hstale e eq_refl).
      destruct (Z.ltb_spec (clock w2 - fetchedAt e) (refreshInterval (provider w2)));
        [lia|].
      simpl. now rewrite stateOf_setState_eq.
    + simpl. now rewrite stateOf_setState_eq.
  - intros e' Hin'. rewrite Heffs in Hin'.
    apply elem_of_cons in Hin'. destruct Hin' as [Hin'|Hin']; [discriminate|].
    destruct (entry (stateOf (provider w2) k)).
    + apply list_elem_of_singleton in Hin'. discriminate.
    + now apply elem_of_nil in Hin'.
Qed.


End ProviderFacts.


Lemma single_flight_witness :
  let w := (Provider.run (Provider.init Samples.detailsInterval)
                         Samples.firstFetchPending).1 in
  (0%nat, "quipuswap") ∈ Provider.pending w
  /\ (Provider.step w (Provider.Reject 0%nat "unreachable")).2
     = [Provider.Return 1%nat (Provider.Error "unreachable")].
Proof.
  intros w.
  assert (Hin : (0%nat, "quipuswap") ∈ Provider.pending w)
    by apply list_elem_of_here.
  split; [exact Hin|].
  destruct (proj2 (single_flight (E:=string) Samples.detailsInterval
                                 Samples.firstFetchPending "quipuswap") 0%nat Hin)
    as [f [Hf [_ [_ [_ Hreject]]]]].
  subst w. rewrite (Hreject "unreachable").
  assert (f = {| Provider.fetchId := 0%nat; Provider.awaiting := [1%nat] |})
    by (vm_compute in Hf; injection Hf as Hf; now symmetry).
  subst f. reflexivity.
Defined.

Lemma fresh_entry_served_without_fetch_witness :
  let w := (Provider.run (Provider.init Samples.detailsInterval)
                         Samples.firstFetchDone).1 in
  let later := [Provider.Tick 60000; Provider.Call 5%nat "kolibri"] in
  let w' := (Provider.run (E:=string) w later).1 in
  Provider.clock w - 0 + Provider.elapsed later < Samples.detailsInterval
  /\ Provider.step (E:=string) w' (Provider.Call 2%nat "quipuswap")
     = (w', [Provider.Return 2%nat (Provider.Data 4200)]).
Proof.
  intros w later w'.
  assert (Hwin : Provider.clock w - 0 + Provider.elapsed later
                 < Samples.detailsInterval) by reflexivity.
  split; [exact Hwin|].
  exact (proj1 (proj2 (proj1 (proj2 (fresh_entry_served_without_fetch (E:=string)))
                             Samples.detailsInterval Samples.firstFetchDone later
                             "quipuswap"
                             {| Provider.value := 4200; Provider.fetchedAt := 0 |}
                             1%nat 2%nat eq_refl Hwin))).
Defined.

Lemma failed_fetch_leaves_cache_witness :
  let w := (Provider.run (Provider.init Samples.detailsInterval)
                         Samples.refreshPending).1 in
  let w1 := (Provider.step w (Provider.Reject 1%nat "unreachable")).1 in
  (1%nat, "quipuswap") ∈ Provider.pending w
  /\ Provider.entry (Provider.stateOf (Provider.provider w1) "quipuswap")
     = Provider.entry (Provider.stateOf (Provider.provider w) "quipuswap").
Proof.
  intros w w1.
  assert (Hin : (1%nat, "quipuswap") ∈ Provider.pending w)
    by apply list_elem_of_here.
  split; [exact Hin|].
  exact (proj1 (proj2 (proj2 (failed_fetch_leaves_cache
                                Samples.detailsInterval Samples.refreshPending
                                "quipuswap" 1%nat "unreachable" Hin)))).
Defined.


(* ===================================================================== *)
(** * Further properties *)
(* ===================================================================== *)

(** ** Notifications: what is returned and what is left in Redis *)

Section MoreNotificationFacts.
Import Notifications NotificationStore.
Variable JSON_parse : string -> option Notification.
Variable JSON_stringify : Notification -> string.
Variable Date_getTime : string -> option Z.

Abbreviation getN := (getNotifications JSON_parse JSON_stringify Date_getTime).
Abbreviation expiredN := (expired Date_getTime).
Abbreviation wantedN := (wanted Date_getTime).
Abbreviation sortN := (sort Date_getTime).
Abbreviation expiredT := (expiredText JSON_parse Date_getTime).
Abbreviation canonical := (canonicalStore JSON_parse JSON_stringify).
Abbreviation newer := (newerOrSame Date_getTime).
Abbreviation hasDate := (dated Date_getTime).

(** What [getNotifications] returns and leaves, in closed form. *)
Lemma getNotifications_unfold (redis : list string) (now : Z)
      (platform : PlatformType) (startFromTime : Z)
      (result : list Notification) (redis' : list string) :
  getN redis now platform startFromTime = Some (result, redis') ->
  exists parsed,
    parseAll JSON_parse redis = Some parsed
    /\ result = List.filter (fun n => negb (expiredN now n)
                                      && wantedN platform startFromTime now n)
                            (sortN parsed)
    /\ redis' = afterRemovals JSON_stringify
                  (List.filter (expiredN now) (sortN parsed)) redis.
Proof.
  unfold getNotifications. intros Hget.
  destruct (parseAll JSON_parse redis) as [parsed|] eqn:Hparse; [|discriminate].
  rewrite loop_unfold in Hget. simpl in Hget. inversion Hget.
  exists parsed. auto.
Qed.

Lemma parsed_elem (data : list string) (parsed : list Notification) (n : Notification) :
  Forall2 (fun item m => JSON_parse item = Some m) data parsed ->
  n ∈ parsed <-> exists item, item ∈ data /\ JSON_parse item = Some n.
Proof.
  intros Hall. induction Hall as [|it m data parsed Hit _ IH].
  - split; [intros Hin; now apply elem_of_nil in Hin|].
    intros [item [Hin _]]. now apply elem_of_nil in Hin.
  - rewrite elem_of_cons, IH. split.
    + intros [->|[item [Hin Hp]]].
      * exists it. split; [apply list_elem_of_here|exact Hit].
      * exists item. split; [now apply list_elem_of_further|exact Hp].
    + intros [item [Hin Hp]]. apply elem_of_cons in Hin.
      destruct Hin as [->|Hin]; [left; congruence|right; eauto].
Qed.

Lemma wanted_iff (platform : PlatformType) (startFromTime now : Z) (n : Notification) :
  wantedN platform startFromTime now n = true
  <-> platform ∈ platforms n
      /\ (isMandatory n = Some true
          \/ exists t, Date_getTime (createdAt n) = Some t
                       /\ startFromTime < t < now).
Proof.
  unfold wanted. rewrite andb_true_iff, includes_true, orb_true_iff.
  apply and_iff_compat_l. split.
  - intros [Hm|Ht].
    + left. destruct (isMandatory n) as [[|]|]; congruence.
    + right. destruct (Date_getTime (createdAt n)) as [t|]; [|discriminate].
      apply andb_true_iff in Ht. destruct Ht as [H1 H2].
      exists t. split; [reflexivity|]. split; now apply Z.ltb_lt.
  - intros [Hm|[t [Ht [H1 H2]]]].
    + left. now rewrite Hm.
    + right. rewrite Ht. apply andb_true_iff. split; now apply Z.ltb_lt.
Qed.

(** X1: [getNotifications] returns exactly the stored notifications that
    have not expired, list the platform, and are mandatory or were created
    strictly between [startFromTime] and now; each as often as it is
    stored. *)
Theorem getNotifications_returns_exactly (redis : list string) (now : Z)
        (platform : PlatformType) (startFromTime : Z)
        (result : list Notification) (redis' : list string) :
  getN redis now platform startFromTime = Some (result, redis') ->
  (forall n,
      n ∈ result
      <-> (exists item, item ∈ redis /\ JSON_parse item = Some n)
          /\ expiredN now n = false
          /\ platform ∈ platforms n
          /\ (isMandatory n = Some true
              \/ exists t, Date_getTime (createdAt n) = Some t
                           /\ startFromTime < t < now))
  /\ (exists parsed,
         Forall2 (fun item n => JSON_parse item = Some n) redis parsed
         /\ result ≡ₚ List.filter
                        (fun n => negb (expiredN now n)
                                  && wantedN platform startFromTime now n)
                        parsed).
Proof.
  intros Hget.
  destruct (getNotifications_unfold _ _ _ _ _ _ Hget) as [parsed [Hparse [Hres _]]].
  pose proof (parseAll_Forall2 _ _ _ Hparse) as Hall.
  split.
  - intros n. rewrite Hres, list_elem_of_In, filter_In, <- list_elem_of_In.
    rewrite (sort_perm Date_getTime parsed), (parsed_elem redis parsed n Hall).
    rewrite andb_true_iff, negb_true_iff, wanted_iff. tauto.
  - exists parsed. split; [exact Hall|]. rewrite Hres.
    assert (Hf : forall (f : Notification -> bool) l l',
               l ≡ₚ l' -> List.filter f l ≡ₚ List.filter f l').
    { intros f l l' Hp. induction Hp; simpl.
      - reflexivity.
      - destruct (f x); [now constructor|assumption].
      - destruct (f x), (f y); try reflexivity. apply perm_swap.
      - etransitivity; eassumption. }
    apply Hf, sort_perm.
Qed.

Lemma lrem1_sublist (v : string) (l : list string) : lrem1 v l `sublist_of` l.
Proof.
  induction l as [|x xs IH]; simpl; [constructor|].
  destruct (String.eqb x v).
  - now apply sublist_cons.
  - now apply sublist_skip.
Qed.

Lemma afterRemovals_sublist (ns : list Notification) (redis : list string) :
  afterRemovals JSON_stringify ns redis `sublist_of` redis.
Proof.
  revert redis. induction ns as [|n ns IH]; intros redis; simpl; [reflexivity|].
  unfold afterRemovals in *. simpl. etransitivity; [apply IH|apply lrem1_sublist].
Qed.

Lemma sublist_count_le (l' l : list string) (x : string) :
  l' `sublist_of` l ->
  (count_occ string_dec l' x <= count_occ string_dec l x)%nat.
Proof.
  induction 1 as [|y l1 l2 _ IH|y l1 l2 _ IH]; simpl; [lia| |];
    destruct (string_dec y x); lia.
Qed.

(** A sublist that lost every element of one kind and none of the others
    is the filter. *)
Lemma sublist_is_filter (P : string -> bool) (l' l : list string) :
  l' `sublist_of` l ->
  (forall x, P x = true -> x ∉ l') ->
  (forall x, P x = false ->
             count_occ string_dec l' x = count_occ string_dec l x) ->
  l' = List.filter (fun x => negb (P x)) l.
Proof.
  induction 1 as [|y l1 l2 Hsub IH|y l1 l2 Hsub IH]; intros Hgone Hkept.
  - reflexivity.
  - simpl. destruct (P y) eqn:Hy.
    + exfalso. apply (Hgone y Hy). apply list_elem_of_here.
    + simpl. f_equal. apply IH.
      * intros x Hx Hin. apply (Hgone x Hx). now apply list_elem_of_further.
      * intros x Hx. specialize (Hkept x Hx). simpl in Hkept.
        destruct (string_dec y x); lia.
  - simpl. destruct (P y) eqn:Hy; simpl.
    + apply IH; [exact Hgone|].
      intros x Hx. specialize (Hkept x Hx). simpl in Hkept.
      destruct (string_dec y x) as [->|Hne]; [congruence|exact Hkept].
    + exfalso. specialize (Hkept y Hy). simpl in Hkept.
      destruct (string_dec y y); [|congruence].
      pose proof (sublist_count_le l1 l2 y Hsub). lia.
Qed.

Lemma filter_perm (f : Notification -> bool) (l l' : list Notification) :
  l ≡ₚ l' -> List.filter f l ≡ₚ List.filter f l'.
Proof.
  intros Hp. induction Hp; simpl.
  - reflexivity.
  - destruct (f x); [now constructor|assumption].
  - destruct (f x), (f y); try reflexivity. apply perm_swap.
  - etransitivity; eassumption.
Qed.

(** On a store of texts as [JSON.stringify] writes them, the removals of
    the loop leave the texts of the notifications that have not expired. *)
Lemma afterRemovals_canonical (redis : list string) (now : Z)
      (parsed : list Notification) :
  parseAll JSON_parse redis = Some parsed ->
  canonical redis ->
  afterRemovals JSON_stringify (List.filter (expiredN now) (sortN parsed)) redis
  = List.filter (fun item => negb (expiredT now item)) redis.
Proof.
  intros Hparse Hcanon.
  pose proof (parseAll_Forall2 _ _ _ Hparse) as Hall.
  set (redis' := afterRemovals JSON_stringify
                   (List.filter (expiredN now) (sortN parsed)) redis).
  assert (Hsub : redis' `sublist_of` redis) by apply afterRemovals_sublist.
  assert (Hperm : map JSON_stringify (List.filter (expiredN now) (sortN parsed))
                  ≡ₚ map JSON_stringify (List.filter (expiredN now) parsed))
    by (apply Permutation_map, filter_perm, sort_perm).
  assert (Hcount : forall x,
             count_occ string_dec redis' x
             = (count_occ string_dec redis x
                - count_occ string_dec
                    (map JSON_stringify (List.filter (expiredN now) parsed)) x)%nat).
  { intros x. unfold redis'. rewrite count_afterRemovals.
    rewrite (Permutation_count_occ string_dec) in Hperm. now rewrite Hperm. }
  apply sublist_is_filter; [exact Hsub| |].
  - intros x Hx Hin. unfold expiredText in Hx.
    destruct (JSON_parse x) as [n|] eqn:Hn; [|discriminate].
    assert (Hxin : x ∈ redis) by (eapply elem_of_sublist; eassumption).
    destruct (Hcanon x Hxin) as [n' [Hn' Hs]].
    assert (n' = n) by congruence. subst n'.
    pose proof (removals_cover JSON_parse JSON_stringify Date_getTime
                               now redis parsed x n Hall Hn Hs Hx) as Hle.
    apply list_elem_of_In, (count_occ_In string_dec) in Hin.
    rewrite Hcount in Hin. lia.
  - intros x Hx. rewrite Hcount.
    assert (Hzero : count_occ string_dec
                      (map JSON_stringify (List.filter (expiredN now) parsed)) x
                    = 0%nat); [|lia].
    apply count_occ_not_In. intros Hin. apply in_map_iff in Hin.
    destruct Hin as [m [Hm Hmin]]. apply filter_In in Hmin.
    destruct Hmin as [Hmin Hexp].
    apply list_elem_of_In, (parsed_elem redis parsed m Hall) in Hmin.
    destruct Hmin as [item [Hitem Hpm]].
    destruct (Hcanon item Hitem) as [n' [Hn' Hs]].
    assert (Hix : item = x) by congruence.
    rewrite <- Hix in Hx. unfold expiredText in Hx. rewrite Hpm in Hx.
    congruence.
Qed.

(** X2: the call never adds to the Redis list nor reorders it; when every
    stored text is what [JSON.stringify] gives for the notification it
    parses to, the list left is the stored one without the texts of the
    expired notifications. *)
Theorem getNotifications_storage (redis : list string) (now : Z)
        (platform : PlatformType) (startFromTime : Z)
        (result : list Notification) (redis' : list string) :
  getN redis now platform startFromTime = Some (result, redis') ->
  redis' `sublist_of` redis
  /\ (canonical redis ->
      redis' = List.filter (fun item => negb (expiredT now item)) redis).
Proof.
  intros Hget.
  destruct (getNotifications_unfold _ _ _ _ _ _ Hget) as [parsed [Hparse [_ Hred]]].
  split.
  - rewrite Hred. apply afterRemovals_sublist.
  - intros Hcanon. rewrite Hred. now apply afterRemovals_canonical.
Qed.

Lemma insertSorted_sorted (x : Notification) (l : list Notification) :
  hasDate x -> Forall hasDate l ->
  StronglySorted newer l ->
  StronglySorted newer (insertSorted Date_getTime x l).
Proof.
  intros [tx Hx] Hl Hs. induction Hs as [|y ys Hys IH Hy]; simpl.
  - repeat constructor.
  - apply Forall_cons in Hl. destruct Hl as [[ty Hty] Hl].
    unfold compareFn. rewrite Hty, Hx.
    destruct (Z.leb_spec (ty - tx) 0) as [Hle|Hgt].
    + constructor; [now constructor|].
      constructor; [exists tx, ty; repeat split; [assumption..|lia]|].
      eapply Forall_impl; [exact Hy|].
      intros z [ty' [tz [H1 [H2 H3]]]]. exists tx, tz.
      repeat split; try assumption. assert (ty' = ty) by congruence. lia.
    + constructor; [now apply IH|].
      rewrite (insertSorted_perm Date_getTime x ys).
      constructor; [|exact Hy].
      exists ty, tx. repeat split; try assumption. lia.
Qed.

Lemma sort_sorted (l : list Notification) :
  Forall hasDate l -> StronglySorted newer (sortN l).
Proof.
  induction l as [|x xs IH]; intros Hl; [constructor|].
  apply Forall_cons in Hl. destruct Hl as [Hx Hl].
  unfold sort in *. simpl. apply insertSorted_sorted; [exact Hx| |now apply IH].
  change (fold_right (insertSorted Date_getTime) [] xs) with (sortN xs).
  now rewrite (sort_perm Date_getTime xs).
Qed.

Lemma filter_sorted (f : Notification -> bool) (l : list Notification) :
  StronglySorted newer l -> StronglySorted newer (List.filter f l).
Proof.
  induction 1 as [|y ys Hys IH Hy]; simpl; [constructor|].
  destruct (f y); [|exact IH].
  constructor; [exact IH|].
  apply Forall_forall. intros z Hz. apply list_elem_of_In, filter_In in Hz.
  rewrite Forall_forall in Hy. apply Hy. apply list_elem_of_In. tauto.
Qed.

(** X3: when the creation date of every stored notification parses, the
    notifications are returned newest first. *)
Theorem getNotifications_newest_first (redis : list string) (now : Z)
        (platform : PlatformType) (startFromTime : Z)
        (result : list Notification) (redis' : list string) :
  (forall item n, item ∈ redis -> JSON_parse item = Some n ->
                  is_Some (Date_getTime (createdAt n))) ->
  getN redis now platform startFromTime = Some (result, redis') ->
  StronglySorted newer result.
Proof.
  intros HhasDate Hget.
  destruct (getNotifications_unfold _ _ _ _ _ _ Hget) as [parsed [Hparse [Hres _]]].
  pose proof (parseAll_Forall2 _ _ _ Hparse) as Hall.
  rewrite Hres. apply filter_sorted, sort_sorted.
  apply Forall_forall. intros n Hn.
  apply (parsed_elem redis parsed n Hall) in Hn.
  destruct Hn as [item [Hitem Hp]]. now apply (HhasDate item n).
Qed.

Lemma filter_sublist_impl (f g : Notification -> bool) (l : list Notification) :
  (forall n, f n = true -> g n = true) ->
  List.filter f l `sublist_of` List.filter g l.
Proof.
  intros Himp. induction l as [|x xs IH]; simpl; [constructor|].
  destruct (f x) eqn:Hf.
  - rewrite (Himp x Hf). now apply sublist_skip.
  - destruct (g x); [now apply sublist_cons|exact IH].
Qed.

(** X4: a later [startFromTime] never brings a notification that an
    earlier one does not: the answer is a sublist, in the same order, and
    the Redis list is left the same. *)
Theorem getNotifications_startFromTime_monotone (redis : list string) (now : Z)
        (platform : PlatformType) (start1 start2 : Z)
        (result1 : list Notification) (redis1 : list string) :
  start1 <= start2 ->
  getN redis now platform start1 = Some (result1, redis1) ->
  exists result2,
    getN redis now platform start2 = Some (result2, redis1)
    /\ result2 `sublist_of` result1.
Proof.
  intros Hle Hget.
  destruct (getNotifications_unfold _ _ _ _ _ _ Hget) as [parsed [Hparse [Hres Hred]]].
  unfold getNotifications. rewrite Hparse, loop_unfold. simpl.
  eexists. split; [rewrite Hred; reflexivity|].
  rewrite Hres. apply filter_sublist_impl.
  intros n Hn. apply andb_true_iff in Hn. destruct Hn as [Hexp Hw].
  apply andb_true_iff. split; [exact Hexp|].
  apply wanted_iff in Hw. apply wanted_iff.
  destruct Hw as [Hp [Hm|[t [Ht Hwin]]]]; split; try assumption; [now left|].
  right. exists t. split; [exact Ht|lia].
Qed.

Lemma parseAll_filter (now : Z) (redis : list string) (parsed : list Notification) :
  Forall2 (fun item n => JSON_parse item = Some n) redis parsed ->
  parseAll JSON_parse (List.filter (fun item => negb (expiredT now item)) redis)
  = Some (List.filter (fun n => negb (expiredN now n)) parsed).
Proof.
  induction 1 as [|item n redis parsed Hp _ IH]; simpl; [reflexivity|].
  unfold expiredText at 1. rewrite Hp.
  destruct (expiredN now n); simpl; [exact IH|].
  now rewrite Hp, IH.
Qed.

(** X5: on a store of texts as [JSON.stringify] writes them, a second
    call at the same time finds nothing left to delete and returns the same
    notifications. *)
Theorem getNotifications_second_call (redis : list string) (now : Z)
        (platform : PlatformType) (startFromTime : Z)
        (result : list Notification) (redis' : list string) :
  canonical redis ->
  getN redis now platform startFromTime = Some (result, redis') ->
  exists result2,
    getN redis' now platform startFromTime = Some (result2, redis')
    /\ result2 ≡ₚ result.
Proof.
  intros Hcanon Hget.
  destruct (getNotifications_unfold _ _ _ _ _ _ Hget) as [parsed [Hparse [Hres Hred]]].
  pose proof (afterRemovals_canonical redis now parsed Hparse Hcanon) as Hfilter.
  rewrite <- Hred in Hfilter.
  pose proof (parseAll_Forall2 _ _ _ Hparse) as Hall.
  set (kept := List.filter (fun n => negb (expiredN now n)) parsed).
  assert (Hparse' : parseAll JSON_parse redis' = Some kept)
    by (rewrite Hfilter; now apply parseAll_filter).
  assert (Hnone : List.filter (expiredN now) (sortN kept) = []).
  { destruct (List.filter (expiredN now) (sortN kept)) as [|x xs] eqn:Hf; [reflexivity|].
    assert (Hx : In x (List.filter (expiredN now) (sortN kept)))
      by (rewrite Hf; now left).
    apply filter_In in Hx. destruct Hx as [Hx Hexp].
    apply list_elem_of_In in Hx. rewrite (sort_perm Date_getTime kept) in Hx.
    apply list_elem_of_In, filter_In in Hx. destruct Hx as [_ Hx].
    rewrite Hexp in Hx. discriminate. }
  unfold getNotifications. rewrite Hparse', loop_unfold. simpl.
  change (sort Date_getTime kept) with (sortN kept).
  rewrite Hnone. simpl. eexists. split; [reflexivity|].
  rewrite Hres.
  rewrite (filter_perm _ _ _ (sort_perm Date_getTime kept)).
  rewrite (filter_perm _ _ _ (sort_perm Date_getTime parsed)).
  unfold kept. clear. induction parsed as [|x xs IH]; simpl; [reflexivity|].
  destruct (expiredN now x) eqn:Hx; simpl; [exact IH|].
  rewrite Hx. simpl. destruct (wantedN platform startFromTime now x); [now rewrite IH|exact IH].
Qed.
End MoreNotificationFacts.

Lemma getNotifications_returns_exactly_witness :
  Notifications.getNotifications
    Samples.sampleParse Samples.sampleStringify Samples.isoTime
    Samples.sampleRedis Samples.sampleNow Notifications.Extension
    Samples.sampleStart
  = Some ([Samples.notification7], ["json-of-7"])
  /\ Notifications.expired Samples.isoTime Samples.sampleNow Samples.notification7
     = false.
Proof.
  split; [reflexivity|].
  exact (proj1 (proj2 (proj1 (proj1 (getNotifications_returns_exactly
                                       Samples.sampleParse Samples.sampleStringify
                                       Samples.isoTime Samples.sampleRedis
                                       Samples.sampleNow Notifications.Extension
                                       Samples.sampleStart
                                       [Samples.notification7] ["json-of-7"]
                                       eq_refl)
                                    Samples.notification7)
                             (list_elem_of_here _ _)))).
Defined.

Lemma sampleRedis_canonical :
  NotificationStore.canonicalStore Samples.sampleParse Samples.sampleStringify
                                   Samples.sampleRedis.
Proof.
  intros item Hin. unfold Samples.sampleRedis in Hin.
  apply elem_of_cons in Hin. destruct Hin as [->|Hin].
  - exists Samples.notification8. split; reflexivity.
  - apply list_elem_of_singleton in Hin. subst item.
    exists Samples.notification7. split; reflexivity.
Defined.

Lemma sampleRedis_dated (item : string) (n : Notifications.Notification) :
  item ∈ Samples.sampleRedis -> Samples.sampleParse item = Some n ->
  is_Some (Samples.isoTime (Notifications.createdAt n)).
Proof.
  intros Hin Hp. unfold Samples.sampleRedis in Hin.
  apply elem_of_cons in Hin. destruct Hin as [->|Hin].
  - injection Hp as <-. now eexists.
  - apply list_elem_of_singleton in Hin. subst item.
    injection Hp as <-. now eexists.
Defined.

Lemma getNotifications_storage_witness :
  Notifications.getNotifications
    Samples.sampleParse Samples.sampleStringify Samples.isoTime
    Samples.sampleRedis Samples.sampleNow Notifications.Extension
    Samples.sampleStart
  = Some ([Samples.notification7], ["json-of-7"])
  /\ ["json-of-7"]
     = List.filter
         (fun item => negb (NotificationStore.expiredText
                              Samples.sampleParse Samples.isoTime
                              Samples.sampleNow item))
         Samples.sampleRedis.
Proof.
  split; [reflexivity|].
  exact (proj2 (getNotifications_storage
                  Samples.sampleParse Samples.sampleStringify Samples.isoTime
                  Samples.sampleRedis Samples.sampleNow Notifications.Extension
                  Samples.sampleStart [Samples.notification7] ["json-of-7"]
                  eq_refl)
               sampleRedis_canonical).
Defined.

Lemma getNotifications_newest_first_witness :
  Notifications.getNotifications
    Samples.sampleParse Samples.sampleStringify Samples.isoTime
    Samples.sampleRedis MoreSamples.sampleEarly Notifications.Extension
    Samples.sampleStart
  = Some ([Samples.notification8; Samples.notification7], Samples.sampleRedis)
  /\ StronglySorted (NotificationStore.newerOrSame Samples.isoTime)
                    [Samples.notification8; Samples.notification7].
Proof.
  split; [reflexivity|].
  exact (getNotifications_newest_first
           Samples.sampleParse Samples.sampleStringify Samples.isoTime
           Samples.sampleRedis MoreSamples.sampleEarly Notifications.Extension
           Samples.sampleStart [Samples.notification8; Samples.notification7]
           Samples.sampleRedis sampleRedis_dated eq_refl).
Defined.

Lemma getNotifications_startFromTime_monotone_witness :
  Samples.sampleStart <= MoreSamples.sampleLateStart
  /\ exists result2,
      Notifications.getNotifications
        Samples.sampleParse Samples.sampleStringify Samples.isoTime
        Samples.sampleRedis MoreSamples.sampleEarly Notifications.Extension
        MoreSamples.sampleLateStart
      = Some (result2, Samples.sampleRedis)
      /\ result2 `sublist_of` [Samples.notification8; Samples.notification7].
Proof.
  assert (Hle : Samples.sampleStart <= MoreSamples.sampleLateStart)
    by discriminate.
  split; [exact Hle|].
  exact (getNotifications_startFromTime_monotone
           Samples.sampleParse Samples.sampleStringify Samples.isoTime
           Samples.sampleRedis MoreSamples.sampleEarly Notifications.Extension
           Samples.sampleStart MoreSamples.sampleLateStart
           [Samples.notification8; Samples.notification7] Samples.sampleRedis
           Hle eq_refl).
Defined.

Lemma getNotifications_second_call_witness :
  exists result2,
    Notifications.getNotifications
      Samples.sampleParse Samples.sampleStringify Samples.isoTime
      ["json-of-7"] Samples.sampleNow Notifications.Extension
      Samples.sampleStart
    = Some (result2, ["json-of-7"])
    /\ result2 ≡ₚ [Samples.notification7].
Proof.
  exact (getNotifications_second_call
           Samples.sampleParse Samples.sampleStringify Samples.isoTime
           Samples.sampleRedis Samples.sampleNow Notifications.Extension
           Samples.sampleStart [Samples.notification7] ["json-of-7"]
           sampleRedis_canonical eq_refl).
Defined.

(** ** The dApp list: lookups and repeated de-duplication *)

Section MoreDAppsFacts.
Import Bcd.

Lemma find_app_slug (s : string) (l1 l2 : list DAppsListItem) :
  List.find (fun d => String.eqb (slug d) s) (l1 ++ l2)
  = match List.find (fun d => String.eqb (slug d) s) l1 with
    | Some d => Some d
    | None => List.find (fun d => String.eqb (slug d) s) l2
    end.
Proof.
  induction l1 as [|x xs IH]; simpl; [reflexivity|].
  destruct (String.eqb (slug x) s); [reflexivity|exact IH].
Qed.

Lemma find_none_slug (s : string) (l : list DAppsListItem) :
  List.find (fun d => String.eqb (slug d) s) l = None <-> someSlug s l = false.
Proof.
  unfold someSlug. induction l as [|x xs IH]; simpl; [tauto|].
  destruct (String.eqb (slug x) s); simpl; [split; discriminate|exact IH].
Qed.

Lemma find_uniqueBcdDApps (s : string) (l : list DAppsListItem) :
  List.find (fun d => String.eqb (slug d) s) (uniqueBcdDApps l)
  = List.find (fun d => String.eqb (slug d) s) l.
Proof.
  induction l as [|d pre IH] using rev_ind; [reflexivity|].
  rewrite uniqueBcdDApps_snoc, !find_app_slug, IH.
  destruct (List.find (fun d0 => String.eqb (slug d0) s) pre) eqn:Hf; [reflexivity|].
  destruct (someSlug (slug d) pre) eqn:Hs; [|reflexivity].
  simpl. destruct (String.eqb (slug d) s) eqn:He; [|reflexivity].
  apply String.eqb_eq in He. subst s.
  apply find_none_slug in Hf. congruence.
Qed.

Lemma find_filter_custom (s : string) (bcdDApps custom : list DAppsListItem) :
  someSlug s bcdDApps = false ->
  List.find (fun d => String.eqb (slug d) s)
            (List.filter (fun c => negb (someSlug (slug c) bcdDApps)) custom)
  = List.find (fun d => String.eqb (slug d) s) custom.
Proof.
  intros Hs. induction custom as [|c cs IH]; simpl; [reflexivity|].
  destruct (String.eqb (slug c) s) eqn:He.
  - apply String.eqb_eq in He. rewrite He, Hs. simpl.
    rewrite He, String.eqb_refl. reflexivity.
  - destruct (someSlug (slug c) bcdDApps); simpl; [exact IH|].
    now rewrite He.
Qed.

(** X6: looking a slug up in the list [getDApps] builds finds what a
    lookup in the upstream list followed by the custom list finds: the first
    upstream dApp of that slug, else the first custom one.  So no slug is
    lost, and an upstream dApp shadows the custom ones of its slug. *)
Theorem getDApps_lookup (custom bcdDApps : list DAppsListItem) (s : string) :
  List.find (fun d => String.eqb (slug d) s) (getDAppsWith custom bcdDApps)
  = List.find (fun d => String.eqb (slug d) s) (bcdDApps ++ custom)
  /\ (s ∈ map slug (getDAppsWith custom bcdDApps)
      <-> s ∈ map slug (bcdDApps ++ custom)).
Proof.
  assert (Hfind : List.find (fun d => String.eqb (slug d) s) (getDAppsWith custom bcdDApps)
                  = List.find (fun d => String.eqb (slug d) s) (bcdDApps ++ custom)).
  { unfold getDAppsWith. rewrite !find_app_slug, find_uniqueBcdDApps.
    destruct (List.find (fun d => String.eqb (slug d) s) bcdDApps) eqn:Hf; [reflexivity|].
    apply find_filter_custom. now apply find_none_slug. }
  split; [exact Hfind|].
  rewrite <- !someSlug_true.
  destruct (someSlug s (getDAppsWith custom bcdDApps)) eqn:H1;
    destruct (someSlug s (bcdDApps ++ custom)) eqn:H2; try tauto;
    apply find_none_slug in H1 || apply find_none_slug in H2;
    [rewrite <- Hfind in H2|rewrite Hfind in H1];
    apply find_none_slug in H1 || apply find_none_slug in H2; congruence.
Qed.

Lemma uniqueBcdDApps_NoDup_id (l : list DAppsListItem) :
  NoDup (map slug l) -> uniqueBcdDApps l = l.
Proof.
  induction l as [|d pre IH] using rev_ind; [reflexivity|].
  rewrite map_app. simpl. intros Hnd.
  apply NoDup_app in Hnd. destruct Hnd as [Hpre [Hdisj _]].
  rewrite uniqueBcdDApps_snoc, (IH Hpre).
  destruct (someSlug (slug d) pre) eqn:Hs; [|reflexivity].
  apply someSlug_true in Hs. exfalso. apply (Hdisj _ Hs). now left.
Qed.

(** X7: a list that has no slug twice passes through the
    de-duplication unchanged; hence de-duplicating is idempotent, and
    feeding [getDApps] its own answer returns that answer. *)
Theorem getDApps_idempotent :
  (forall bcdDApps, NoDup (map slug bcdDApps) -> getDApps bcdDApps = bcdDApps)
  /\ (forall bcdDApps,
         uniqueBcdDApps (uniqueBcdDApps bcdDApps) = uniqueBcdDApps bcdDApps)
  /\ (forall bcdDApps, getDApps (getDApps bcdDApps) = getDApps bcdDApps).
Proof.
  assert (H1 : forall l, NoDup (map slug l) -> getDApps l = l).
  { intros l Hnd. unfold getDApps, getDAppsWith, customDApps. simpl.
    rewrite app_nil_r. now apply uniqueBcdDApps_NoDup_id. }
  assert (H2 : forall l, NoDup (map slug (uniqueBcdDApps l))).
  { intros l. apply fold_pushUnique_NoDup. constructor. }
  split; [exact H1|]. split.
  - intros l. apply uniqueBcdDApps_NoDup_id, H2.
  - intros l. apply H1. unfold getDApps, getDAppsWith, customDApps. simpl.
    rewrite app_nil_r. apply H2.
Qed.

End MoreDAppsFacts.

Lemma getDApps_idempotent_witness :
  NoDup (map Bcd.slug [Samples.dAppC; Samples.dAppA])
  /\ Bcd.getDApps [Samples.dAppC; Samples.dAppA] = [Samples.dAppC; Samples.dAppA].
Proof.
  assert (Hnd : NoDup (map Bcd.slug [Samples.dAppC; Samples.dAppA])).
  { simpl. apply NoDup_cons. split; [|apply NoDup_singleton].
    intros Hin. apply list_elem_of_singleton in Hin. discriminate. }
  split; [exact Hnd|].
  exact (proj1 getDApps_idempotent [Samples.dAppC; Samples.dAppA] Hnd).
Defined.

(** ** The calendar month the estimator extrapolates over *)

Section CalendarFacts.
Import JsDate Calendar.

Lemma daysInMonth_bounds (y m : Z) : 28 <= daysInMonth y m <= 31.
Proof.
  unfold daysInMonth.
  destruct (m =? 1); [destruct (isLeapYear y); lia|].
  destruct ((m =? 3) || (m =? 5) || (m =? 8) || (m =? 10)); lia.
Qed.

(** Year of era and day of year (from 1 March) of a day of era. *)
Lemma yoe_doy_bounds (doe : Z) :
  0 <= doe < 146097 ->
  let yoe := (doe - doe / 1460 + doe / 36524 - doe / 146096) / 365 in
  let doy := doe - (365 * yoe + yoe / 4 - yoe / 100) in
  0 <= yoe <= 399 /\ 0 <= doy <= 366.
Proof.
  intros H yoe doy. subst doy yoe. Z.div_mod_to_equations. lia.
Qed.

(** [MakeDay] undoes [civil]. *)
Lemma civil_MakeDay (d : Z) :
  let '(y, m, dom) := civil d in 0 <= m <= 11 /\ MakeDay y m dom = d.
Proof.
  unfold civil.
  set (z := d + 719468). set (era := z / 146097). set (doe := z - era * 146097).
  assert (Hdoe : 0 <= doe < 146097)
    by (unfold doe, era; Z.div_mod_to_equations; lia).
  pose proof (yoe_doy_bounds doe Hdoe) as Hb. cbv zeta in Hb |- *.
  set (yoe := (doe - doe / 1460 + doe / 36524 - doe / 146096) / 365) in *.
  set (doy := doe - (365 * yoe + yoe / 4 - yoe / 100)) in *.
  set (mp := (5 * doy + 2) / 153).
  assert (Hmp : 0 <= mp <= 11) by (unfold mp; Z.div_mod_to_equations; lia).
  set (m := if mp <? 10 then mp + 2 else mp - 10).
  assert (Hm : 0 <= m <= 11 /\ (if 1 <? m then m - 2 else m + 10) = mp
               /\ (if m <=? 1 then 1 else 0) = (if mp <? 10 then 0 else 1)).
  { unfold m. destruct (Z.ltb_spec mp 10).
    - destruct (Z.ltb_spec 1 (mp + 2)); destruct (Z.leb_spec (mp + 2) 1); lia.
    - destruct (Z.ltb_spec 1 (mp - 10)); destruct (Z.leb_spec (mp - 10) 1); lia. }
  destruct Hm as [Hm [Hmp' Hc]]. split; [exact Hm|].
  unfold MakeDay, dayOfMonthStart. cbv zeta.
  rewrite (Z.div_small m 12), (Z.mod_small m 12), Z.add_0_r by lia.
  rewrite Hmp'.
  replace (if m <=? 1 then yoe + era * 400 + (if m <=? 1 then 1 else 0) - 1
           else yoe + era * 400 + (if m <=? 1 then 1 else 0))
    with (yoe + era * 400) by (destruct (m <=? 1); lia).
  rewrite Z.div_add, (Z.div_small yoe 400) by lia.
  replace (yoe + era * 400 - (0 + era) * 400) with yoe by lia.
  unfold doy at 1. fold doy. unfold doe, z in *. lia.
Qed.

Lemma dayOfMonthStart_next (y m : Z) :
  0 <= m <= 11 ->
  dayOfMonthStart (y + (m + 1) / 12) ((m + 1) mod 12)
  = dayOfMonthStart y m + daysInMonth y m.
Proof.
  intros Hm.
  assert (Hcases : m = 0 \/ m = 1 \/ m = 2 \/ m = 3 \/ m = 4 \/ m = 5 \/ m = 6
                   \/ m = 7 \/ m = 8 \/ m = 9 \/ m = 10 \/ m = 11) by lia.
  repeat (destruct Hcases as [->|Hcases]); try subst m.
  all: match goal with
       | |- dayOfMonthStart (_ + ?q) ?r = _ =>
           let q' := eval vm_compute in q in
           let r' := eval vm_compute in r in
           change q with q'; change r with r'
       end.
  all: unfold dayOfMonthStart, daysInMonth, isLeapYear; cbv zeta.
  all: repeat match goal with
              | |- context [if ?c then _ else _] =>
                  let v := eval vm_compute in c in
                  first [constr_eq v true | constr_eq v false];
                  change c with v; cbv iota
              end.
  all: try (Z.div_mod_to_equations; lia).
  all: destruct (Z.eqb_spec (y mod 4) 0); destruct (Z.eqb_spec (y mod 100) 0);
    destruct (Z.eqb_spec (y mod 400) 0); cbn [andb orb negb];
    Z.div_mod_to_equations; lia.
Qed.

(** One month later in [MakeDay] is the length of the month later. *)
Lemma MakeDay_next_month (y m dom : Z) :
  0 <= m <= 11 -> MakeDay y (m + 1) dom = MakeDay y m dom + daysInMonth y m.
Proof.
  intros Hm. unfold MakeDay. cbv zeta.
  rewrite dayOfMonthStart_next by exact Hm.
  rewrite (Z.div_small m 12), (Z.mod_small m 12), Z.add_0_r by lia. lia.
Qed.
End CalendarFacts.

Section NextMonthFacts.
Import JsNumber JsDate Calendar Bcd.
Variable LocalTZA : Z -> bool -> Z.
Variable offset : Z.
Hypothesis constant_offset : forall t isUTC, LocalTZA t isUTC = offset.

Lemma nextMonthDateOf_constant_offset (t : Z) :
  Z.abs t <= maxTime ->
  nextMonthDateOf LocalTZA t
  = TimeClip (t + daysInMonth (YearFromTime (t + offset))
                              (MonthFromTime (t + offset)) * msPerDay).
Proof.
  intros Ht. unfold nextMonthDateOf, newDate, TimeClip.
  destruct (Z.leb_spec (Z.abs t) maxTime) as [_|Hgt]; [|lia].
  cbn [getMonth option_map setMonth]. unfold LocalTime, UTC.
  rewrite !constant_offset.
  unfold YearFromTime, MonthFromTime, DateFromTime, TimeWithinDay.
  pose proof (civil_MakeDay (Day (t + offset))) as Hc.
  destruct (civil (Day (t + offset))) as [[y m] dom]. cbn [fst snd].
  destruct Hc as [Hm Hday].
  rewrite (Z.add_comm 1 m), (MakeDay_next_month y m dom Hm), Hday.
  unfold MakeDate, Day.
  pose proof (Z.div_mod (t + offset) msPerDay) as Hdm.
  assert (Hneq : msPerDay <> 0) by discriminate. specialize (Hdm Hneq).
  replace (((t + offset) / msPerDay + daysInMonth y m) * msPerDay
           + (t + offset) mod msPerDay - offset)
    with (t + daysInMonth y m * msPerDay) by lia.
  reflexivity.
Qed.

(** X8: on a host whose time zone offset never changes, [setMonth(getMonth()
    + 1)] moves a valid date forward by the length of the calendar month it
    lies in, 28 to 31 days, whatever its day of the month (the 31st of
    January goes to the 3rd of March, or the 2nd in a leap year); so the
    span [nextMonthDate.getTime() - currentMonthTimestamp] that the estimator
    divides is that many days, exactly. *)
Theorem nextMonthDate_is_one_month_length_later (t : Z) :
  0 <= t -> t + 31 * msPerDay <= maxTime ->
  let days := daysInMonth (YearFromTime (t + offset))
                          (MonthFromTime (t + offset)) in
  28 <= days <= 31
  /\ nextMonthDateOf LocalTZA t = Some (t + days * msPerDay)
  /\ sub (getTime (nextMonthDateOf LocalTZA t)) (ofZ t) = ofZ (days * msPerDay).
Proof.
  intros H0 Hmax days.
  pose proof (daysInMonth_bounds (YearFromTime (t + offset))
                                 (MonthFromTime (t + offset))) as Hb.
  fold days in Hb.
  assert (Hms : msPerDay = 86400000) by reflexivity.
  assert (Hmt : maxTime = 8640000000000000) by reflexivity.
  assert (Hnext : nextMonthDateOf LocalTZA t = Some (t + days * msPerDay)).
  { rewrite nextMonthDateOf_constant_offset by lia. fold days.
    unfold TimeClip.
    destruct (Z.leb_spec (Z.abs (t + days * msPerDay)) maxTime); [reflexivity|lia]. }
  split; [exact Hb|]. split; [exact Hnext|].
  rewrite Hnext. cbn [getTime].
  assert (H53 : 2 ^ 53 = 9007199254740992) by reflexivity.
  rewrite sub_ofZ_exact by lia. f_equal. lia.
Qed.
End NextMonthFacts.

Section MoreEstimateFacts.
Import JsNumber Bcd.
Variable LocalTZA : Z -> bool -> Z.

End MoreEstimateFacts.

Lemma nextMonthDate_is_one_month_length_later_witness :
  0 <= MoreSamples.january31
  /\ MoreSamples.january31 + 31 * JsDate.msPerDay <= JsDate.maxTime
  /\ Bcd.nextMonthDateOf Samples.utcZone MoreSamples.january31
     = Some (MoreSamples.january31 + 31 * JsDate.msPerDay).
Proof.
  assert (H0 : 0 <= MoreSamples.january31) by discriminate.
  assert (Hmax : MoreSamples.january31 + 31 * JsDate.msPerDay <= JsDate.maxTime)
    by discriminate.
  split; [exact H0|]. split; [exact Hmax|].
  exact (proj1 (proj2 (nextMonthDate_is_one_month_length_later
                         Samples.utcZone 0 (fun _ _ => eq_refl)
                         MoreSamples.january31 H0 Hmax))).
Defined.


(** ** The estimate before and after the defaults [= 0] *)

Section RevisionFacts.
Import JsNumber Bcd.
Variable LocalTZA : Z -> bool -> Z.

Lemma readCount_present (p : SeriesPoint) :
  is_Some (count p) -> readCount p = Num (countOr0 p).
Proof. unfold readCount, countOr0. intros [c ->]. reflexivity. Qed.

(** X10: the defaults [= 0] added to the destructuring change nothing
    when the points read have their counts: the earlier and the later
    [getDAppDetails] give the same estimate. *)
Theorem estimate_revisions_agree (now : Z) (series : list SeriesPoint) :
  (forall p, p ∈ slice_neg2 series -> is_Some (count p)) ->
  BcdEarlier.estimatedUsersPerMonth LocalTZA now series
  = Bcd.estimatedUsersPerMonth LocalTZA now series.
Proof.
  intros Hall.
  unfold BcdEarlier.estimatedUsersPerMonth, Bcd.estimatedUsersPerMonth.
  cbv zeta. destruct (slice_neg2 series) as [|prev [|cur rest]]; try reflexivity.
  rewrite (readCount_present prev), (readCount_present cur).
  - reflexivity.
  - apply Hall. apply list_elem_of_further, list_elem_of_here.
  - apply Hall. apply list_elem_of_here.
Qed.

Lemma mul_NaN (x : Number) : mul x NaN = NaN.
Proof. destruct x as [s|s| |s m e]; reflexivity. Qed.

Lemma add_NaN_r (x : Number) : add x NaN = NaN.
Proof. destruct x as [s|s| |s m e]; reflexivity. Qed.

Lemma Math_max_NaN_r (x : Number) : Math_max x NaN = NaN.
Proof. destruct x as [s|s| |s m e]; reflexivity. Qed.

(** X11: what the defaults repair.  When the count of the last point, or
    of the one before it, is missing, the earlier revision answers
    [undefined] or NaN where the later one answers a count: in a month less
    than a week old it hands on the missing count of the previous point,
    and in an older month the missing count turns the arithmetic into
    NaN. *)
Theorem estimate_earlier_revision_missing_count
        (now : Z) (pre : list SeriesPoint) (prev cur : SeriesPoint) :
  let elapsed := sub (ofZ now) (ofZ (timestamp cur)) in
  (lt elapsed oneWeekMs = true -> count prev = None ->
   BcdEarlier.estimatedUsersPerMonth LocalTZA now (pre ++ [prev; cur]) = Undefined
   /\ Bcd.estimatedUsersPerMonth LocalTZA now (pre ++ [prev; cur]) = Num (ofZ 0))
  /\ (lt elapsed oneWeekMs = false -> count prev = None \/ count cur = None ->
      BcdEarlier.estimatedUsersPerMonth LocalTZA now (pre ++ [prev; cur]) = Num NaN
      /\ exists x, Bcd.estimatedUsersPerMonth LocalTZA now (pre ++ [prev; cur]) = Num x
                   /\ lt x (countOr0 cur) = false).
Proof.
  intros elapsed.
  unfold BcdEarlier.estimatedUsersPerMonth, Bcd.estimatedUsersPerMonth.
  rewrite slice_neg2_two. cbv zeta. fold elapsed. split.
  - intros Hlt Hprev. rewrite Hlt. unfold readCount, countOr0. rewrite Hprev.
    split; reflexivity.
  - intros Hlt Hmissing. rewrite Hlt. split.
    + f_equal. unfold readCount. destruct Hmissing as [Hp|Hc].
      * rewrite Hp. cbn [BcdEarlier.ToNumber].
        match goal with |- Math_max (Math_round (div (add NaN ?e) _)) _ = _ =>
          replace (add NaN e) with NaN by (destruct e as [s|s| |s m ex]; reflexivity)
        end.
        cbn [div SFdiv NaN]. destruct (count cur); reflexivity.
      * rewrite Hc. cbn [BcdEarlier.ToNumber]. apply Math_max_NaN_r.
    + eexists. split; [reflexivity|]. apply Math_max_not_below.
Qed.
End RevisionFacts.

Lemma estimate_revisions_agree_witness :
  BcdEarlier.estimatedUsersPerMonth Samples.utcZone 1682035200000
    [Bcd.mkPoint 1677628800000 (Some 100); Bcd.mkPoint 1680307200000 (Some 15)]
  = Bcd.estimatedUsersPerMonth Samples.utcZone 1682035200000
      [Bcd.mkPoint 1677628800000 (Some 100); Bcd.mkPoint 1680307200000 (Some 15)].
Proof.
  apply (estimate_revisions_agree Samples.utcZone 1682035200000
           [Bcd.mkPoint 1677628800000 (Some 100);
            Bcd.mkPoint 1680307200000 (Some 15)]).
  intros p Hp. cbn in Hp. apply elem_of_cons in Hp. destruct Hp as [->|Hp].
  - now eexists.
  - apply list_elem_of_singleton in Hp. subst p. now eexists.
Defined.

Lemma estimate_earlier_revision_missing_count_witness :
  BcdEarlier.estimatedUsersPerMonth Samples.utcZone 1680480000000
    ([] ++ [Bcd.mkPoint 1677628800000 None; Bcd.mkPoint 1680307200000 (Some 10)])
  = Undefined
  /\ BcdEarlier.estimatedUsersPerMonth Samples.utcZone 1682035200000
       ([] ++ [Bcd.mkPoint 1677628800000 (Some 100); Bcd.mkPoint 1680307200000 None])
     = Num JsNumber.NaN.
Proof.
  split.
  - exact (proj1 (proj1 (estimate_earlier_revision_missing_count
                           Samples.utcZone 1680480000000 []
                           (Bcd.mkPoint 1677628800000 None)
                           (Bcd.mkPoint 1680307200000 (Some 10)))
                        eq_refl eq_refl)).
  - exact (proj1 (proj2 (estimate_earlier_revision_missing_count
                           Samples.utcZone 1682035200000 []
                           (Bcd.mkPoint 1677628800000 (Some 100))
                           (Bcd.mkPoint 1680307200000 None))
                        eq_refl (or_intror eq_refl))).
Defined.

(** ** The Alice-Bob signature: which parts of the payload are signed *)

Section SortFacts.
Import AliceBob KeyOrder.

Lemma String_compare_lt_trans (a b c : string) :
  String.compare a b = Lt -> String.compare b c = Lt -> String.compare a c = Lt.
Proof.
  revert b c. induction a as [|x a IH]; intros [|y b] [|z c]; simpl; try congruence.
  unfold Ascii.compare.
  destruct (N.compare_spec (N_of_ascii x) (N_of_ascii y)) as [Hxy|Hxy|Hxy];
    destruct (N.compare_spec (N_of_ascii y) (N_of_ascii z)) as [Hyz|Hyz|Hyz];
    try congruence; intros H1 H2.
  - rewrite Hxy, Hyz, N.compare_refl. now apply (IH b c).
  - rewrite Hxy. now rewrite (proj2 (N.compare_lt_iff _ _) Hyz).
  - rewrite <- Hyz. now rewrite (proj2 (N.compare_lt_iff _ _) Hxy).
  - assert (Hxz : (N_of_ascii x < N_of_ascii z)%N) by lia.
    now rewrite (proj2 (N.compare_lt_iff _ _) Hxz).
Qed.

Lemma String_compare_refl (a : string) : String.compare a a = Eq.
Proof.
  pose proof (String.compare_antisym a a) as H.
  destruct (String.compare a a); simpl in H; congruence.
Qed.

Lemma String_leb_trans (a b c : string) :
  String.leb a b = true -> String.leb b c = true -> String.leb a c = true.
Proof.
  unfold String.leb.
  destruct (String.compare a b) eqn:Hab; try discriminate;
    destruct (String.compare b c) eqn:Hbc; try discriminate; intros _ _.
  - apply String.compare_eq_iff in Hab, Hbc. subst.
    now rewrite String_compare_refl.
  - apply String.compare_eq_iff in Hab. subst. now rewrite Hbc.
  - apply String.compare_eq_iff in Hbc. subst. now rewrite Hab.
  - now rewrite (String_compare_lt_trans a b c Hab Hbc).
Qed.

Lemma keyLe_trans : Transitive keyLe.
Proof. intros a b c. apply String_leb_trans. Qed.

Lemma keyLe_antisym : AntiSymm eq keyLe.
Proof. intros a b. apply String.leb_antisym. Qed.

Lemma insertKey_perm (k : string) (l : list string) : insertKey k l ≡ₚ k :: l.
Proof.
  induction l as [|y ys IH]; simpl; [reflexivity|].
  destruct (String.leb k y); [reflexivity|].
  rewrite IH. apply perm_swap.
Qed.

Lemma sortKeys_perm (l : list string) : sortKeys l ≡ₚ l.
Proof.
  induction l as [|k ks IH]; [reflexivity|].
  unfold sortKeys in *. simpl. now rewrite insertKey_perm, IH.
Qed.

Lemma insertKey_sorted (k : string) (l : list string) :
  StronglySorted keyLe l -> StronglySorted keyLe (insertKey k l).
Proof.
  induction 1 as [|y ys Hys IH Hy]; simpl.
  - repeat constructor.
  - destruct (String.leb k y) eqn:Hk.
    + constructor; [now constructor|].
      constructor; [exact Hk|].
      eapply Forall_impl; [exact Hy|]. intros z Hz.
      now apply (String_leb_trans k y z).
    + constructor; [exact IH|].
      rewrite insertKey_perm. constructor; [|exact Hy].
      destruct (String.leb_total k y) as [H|H]; [congruence|exact H].
Qed.

Lemma sortKeys_sorted (l : list string) : StronglySorted keyLe (sortKeys l).
Proof.
  induction l as [|k ks IH]; [constructor|].
  unfold sortKeys in *. simpl. now apply insertKey_sorted.
Qed.

Lemma sortKeys_unique (l l' : list string) :
  l ≡ₚ l' -> sortKeys l = sortKeys l'.
Proof.
  intros Hp. pose proof keyLe_trans. pose proof keyLe_antisym.
  apply (StronglySorted_unique keyLe); try apply sortKeys_sorted.
  now rewrite !sortKeys_perm.
Qed.

Lemma filter_keys_sorted (f : string -> bool) (l : list string) :
  StronglySorted keyLe l -> StronglySorted keyLe (List.filter f l).
Proof.
  induction 1 as [|y ys Hys IH Hy]; simpl; [constructor|].
  destruct (f y); [|exact IH].
  constructor; [exact IH|].
  apply Forall_forall. intros z Hz. apply list_elem_of_In, filter_In in Hz.
  rewrite Forall_forall in Hy. apply Hy. apply list_elem_of_In. tauto.
Qed.

Lemma filter_keys_perm (f : string -> bool) (l l' : list string) :
  l ≡ₚ l' -> List.filter f l ≡ₚ List.filter f l'.
Proof.
  intros Hp. induction Hp; simpl.
  - reflexivity.
  - destruct (f x); [now constructor|assumption].
  - destruct (f x), (f y); try reflexivity. apply perm_swap.
  - etransitivity; eassumption.
Qed.

Lemma sortKeys_filter (f : string -> bool) (l : list string) :
  sortKeys (List.filter f l) = List.filter f (sortKeys l).
Proof.
  pose proof keyLe_trans. pose proof keyLe_antisym.
  apply (StronglySorted_unique keyLe).
  - apply sortKeys_sorted.
  - apply filter_keys_sorted, sortKeys_sorted.
  - rewrite sortKeys_perm. apply filter_keys_perm. symmetry. apply sortKeys_perm.
Qed.

Lemma get_elem (p : Payload) (k : string) (v : Value) :
  NoDup (keys p) -> (k, v) ∈ p -> get p k = v.
Proof.
  unfold keys. induction p as [|[k' v'] rest IH]; simpl; intros Hnd Hin.
  - now apply elem_of_nil in Hin.
  - apply NoDup_cons in Hnd. destruct Hnd as [Hk' Hnd].
    apply elem_of_cons in Hin. destruct Hin as [Heq|Hin].
    + injection Heq as -> ->. now rewrite String.eqb_refl.
    + destruct (String.eqb k' k) eqn:He; [|now apply IH].
      apply String.eqb_eq in He. subst k'. exfalso. apply Hk'.
      apply list_elem_of_fmap. now exists (k, v).
Qed.

Lemma get_absent (p : Payload) (k : string) :
  k ∉ keys p -> get p k = VUndefined.
Proof.
  unfold keys. induction p as [|[k' v'] rest IH]; simpl; intros Hk; [reflexivity|].
  apply not_elem_of_cons in Hk. destruct Hk as [Hne Hk].
  destruct (String.eqb k' k) eqn:He; [|now apply IH].
  apply String.eqb_eq in He. congruence.
Qed.

Lemma get_present (p : Payload) (k : string) :
  k ∈ keys p -> (k, get p k) ∈ p.
Proof.
  unfold keys. induction p as [|[k' v'] rest IH]; simpl; intros Hk.
  - now apply elem_of_nil in Hk.
  - destruct (String.eqb k' k) eqn:He.
    + apply String.eqb_eq in He. subst. now left.
    + apply elem_of_cons in Hk. destruct Hk as [->|Hk].
      * now rewrite String.eqb_refl in He.
      * right. now apply IH.
Qed.

Lemma get_perm (p q : Payload) (k : string) :
  NoDup (keys p) -> p ≡ₚ q -> get p k = get q k.
Proof.
  intros Hnd Hp.
  assert (Hq : NoDup (keys q)) by (unfold keys in *; now rewrite <- Hp).
  destruct (decide (k ∈ keys p)) as [Hin|Hout].
  - symmetry. apply get_elem; [exact Hq|]. rewrite <- Hp. now apply get_present.
  - rewrite (get_absent p k Hout). symmetry. apply get_absent.
    unfold keys in *. now rewrite <- Hp.
Qed.
End SortFacts.

Section SignatureFacts.
Import AliceBob.
Variable Number_toString : JsNumber.Number -> string.
Variable toLowerCase : string -> string.
Variable createHmac : string -> string -> string.
Variable ALICE_BOB_PRIVATE_KEY : string.

Abbreviation sign :=
  (getAliceBobSignature Number_toString toLowerCase createHmac ALICE_BOB_PRIVATE_KEY).
Abbreviation entry := (appendEntry Number_toString toLowerCase).

Lemma fold_entry_ext (p q : Payload) (l : list string) (acc : string) :
  (forall k, get p k = get q k) ->
  fold_left (entry p) l acc = fold_left (entry q) l acc.
Proof.
  intros Hget. revert acc. induction l as [|k ks IH]; intros acc; [reflexivity|].
  simpl. rewrite IH. unfold appendEntry. now rewrite Hget.
Qed.

(** X12: the signature does not depend on the order in which the payload
    lists its properties: the keys are sorted before they are read. *)
Theorem signature_ignores_property_order (p q : Payload) (now : Z) :
  NoDup (keys p) -> p ≡ₚ q -> sign (Some p) now = sign (Some q) now.
Proof.
  intros Hnd Hp. unfold getAliceBobSignature, initStringOf. cbv zeta.
  rewrite (sortKeys_unique (keys p) (keys q)) by (unfold keys; now rewrite Hp).
  rewrite (fold_entry_ext p q); [reflexivity|].
  intros k. now apply get_perm.
Qed.

Lemma fold_entry_filter (p : Payload) (l : list string) (acc : string) :
  fold_left (entry p) (List.filter (fun k => contributes (get p k)) l) acc
  = fold_left (entry p) l acc.
Proof.
  revert acc. induction l as [|k ks IH]; intros acc; [reflexivity|].
  simpl. destruct (contributes (get p k)) eqn:Hc; simpl; rewrite IH; [reflexivity|].
  f_equal. unfold appendEntry, contributes in *. cbv zeta.
  destruct (truthy (get p k)), (isObject (get p k)); simpl in *; congruence.
Qed.

Lemma keys_filter (p : Payload) :
  NoDup (keys p) ->
  keys (List.filter (fun kv => contributes (snd kv)) p)
  = List.filter (fun k => contributes (get p k)) (keys p).
Proof.
  unfold keys. induction p as [|[k v] rest IH]; simpl; intros Hnd; [reflexivity|].
  apply NoDup_cons in Hnd. destruct Hnd as [Hk Hnd].
  rewrite String.eqb_refl.
  assert (Hrest : List.filter (fun k0 => contributes (if String.eqb k k0 then v else get rest k0))
                              (map fst rest)
                  = List.filter (fun k0 => contributes (get rest k0)) (map fst rest)).
  { apply filter_ext_in. intros k0 Hk0.
    destruct (String.eqb k k0) eqn:He; [|reflexivity].
    apply String.eqb_eq in He. subst k0. exfalso. apply Hk.
    now apply list_elem_of_In. }
  rewrite Hrest, <- (IH Hnd).
  destruct (contributes v); reflexivity.
Qed.

Lemma get_filter (p : Payload) (k : string) :
  NoDup (keys p) -> contributes (get p k) = true ->
  get (List.filter (fun kv => contributes (snd kv)) p) k = get p k.
Proof.
  unfold keys. induction p as [|[k' v] rest IH]; simpl; intros Hnd Hc; [reflexivity|].
  apply NoDup_cons in Hnd. destruct Hnd as [Hk Hnd].
  destruct (String.eqb k' k) eqn:He.
  - rewrite Hc. simpl. now rewrite He.
  - destruct (contributes v); simpl; [rewrite He|]; now apply IH.
Qed.

(** X13: a property whose value is falsy (0, NaN, the empty string, false,
    null, undefined) or an object leaves no trace in the signature: the
    payload signs like the payload without those properties; and a payload
    of such properties only, or a missing one, signs like the empty
    payload. *)
Theorem signature_ignores_skipped_properties (p : Payload) (now : Z) :
  NoDup (keys p) ->
  sign (Some p) now
  = sign (Some (List.filter (fun kv => contributes (snd kv)) p)) now
  /\ (Forall (fun kv => contributes (snd kv) = false) p ->
      sign (Some p) now = sign None now).
Proof.
  intros Hnd.
  assert (Hmain : sign (Some p) now
                  = sign (Some (List.filter (fun kv => contributes (snd kv)) p)) now).
  { unfold getAliceBobSignature, initStringOf. cbv zeta. do 3 f_equal.
    rewrite keys_filter by exact Hnd.
    rewrite sortKeys_filter.
    rewrite <- (fold_entry_filter p (sortKeys (keys p))).
    set (l := List.filter _ (sortKeys (keys p))).
    assert (Hl : Forall (fun k => contributes (get p k) = true) l).
    { apply Forall_forall. intros k Hk. unfold l in Hk.
      apply list_elem_of_In, filter_In in Hk. tauto. }
    clearbody l. generalize ""%string as acc.
    induction Hl as [|k ks Hk _ IH]; intros acc; [reflexivity|].
    simpl. rewrite IH. f_equal. unfold appendEntry.
    now rewrite get_filter. }
  split; [exact Hmain|].
  intros Hall. rewrite Hmain.
  replace (List.filter (fun kv => contributes (snd kv)) p) with (@nil (string * Value)).
  - reflexivity.
  - symmetry. clear Hmain Hnd. induction Hall as [|kv rest Hkv _ IH]; [reflexivity|].
    simpl. now rewrite Hkv.
Qed.
End SignatureFacts.

Lemma signature_ignores_property_order_witness :
  NoDup (AliceBob.keys MoreSamples.payloadFromTo)
  /\ MoreSamples.payloadFromTo ≡ₚ MoreSamples.payloadToFrom
  /\ AliceBob.getAliceBobSignature
       MoreSamples.sampleNumberToString MoreSamples.sampleToLowerCase
       MoreSamples.sampleHmac MoreSamples.sampleKey
       (Some MoreSamples.payloadFromTo) Samples.sampleNow
     = AliceBob.getAliceBobSignature
         MoreSamples.sampleNumberToString MoreSamples.sampleToLowerCase
         MoreSamples.sampleHmac MoreSamples.sampleKey
         (Some MoreSamples.payloadToFrom) Samples.sampleNow.
Proof.
  assert (Hnd : NoDup (AliceBob.keys MoreSamples.payloadFromTo)).
  { simpl. apply NoDup_cons. split; [|apply NoDup_singleton].
    intros Hin. apply list_elem_of_singleton in Hin. discriminate. }
  assert (Hp : MoreSamples.payloadFromTo ≡ₚ MoreSamples.payloadToFrom)
    by apply perm_swap.
  split; [exact Hnd|]. split; [exact Hp|].
  exact (signature_ignores_property_order
           MoreSamples.sampleNumberToString MoreSamples.sampleToLowerCase
           MoreSamples.sampleHmac MoreSamples.sampleKey
           MoreSamples.payloadFromTo MoreSamples.payloadToFrom
           Samples.sampleNow Hnd Hp).
Defined.

Lemma signature_ignores_skipped_properties_witness :
  NoDup (AliceBob.keys MoreSamples.payloadWithBlanks)
  /\ AliceBob.getAliceBobSignature
       MoreSamples.sampleNumberToString MoreSamples.sampleToLowerCase
       MoreSamples.sampleHmac MoreSamples.sampleKey
       (Some MoreSamples.payloadWithBlanks) Samples.sampleNow
     = AliceBob.getAliceBobSignature
         MoreSamples.sampleNumberToString MoreSamples.sampleToLowerCase
         MoreSamples.sampleHmac MoreSamples.sampleKey
         (Some MoreSamples.payloadFromTo) Samples.sampleNow.
Proof.
  assert (Hnd : NoDup (AliceBob.keys MoreSamples.payloadWithBlanks)).
  { apply (proj2 (NoDup_ListNoDup _)).
    repeat (constructor; [simpl; intuition discriminate|]). constructor. }
  split; [exact Hnd|].
  exact (proj1 (signature_ignores_skipped_properties
                  MoreSamples.sampleNumberToString MoreSamples.sampleToLowerCase
                  MoreSamples.sampleHmac MoreSamples.sampleKey
                  MoreSamples.payloadWithBlanks Samples.sampleNow Hnd)).
Defined.

(** ** Ad provider selectors: what the Set merges *)

Section AdProvidersFacts.
Import AdProviders AdProvidersAnswer.

Lemma mapRule_positiveDepth (i : nat) (rule : AdProviderSelectorsRule) :
  mapRule i rule
  = match positiveDepth rule with
    | Some d => [IObject i (join (selectors rule)) d]
    | None => map IString (selectors rule)
    end.
Proof.
  unfold mapRule, positiveDepth. destruct (parentDepth rule) as [d|]; [|reflexivity].
  simpl. destruct (0 <? d); reflexivity.
Qed.

Lemma Item_eqb_refl (x : Item) : Item_eqb x x = true.
Proof. destruct x; simpl; [apply String.eqb_refl|apply Nat.eqb_refl]. Qed.

Lemma Item_eqb_trans (x y z : Item) :
  Item_eqb x y = true -> Item_eqb y z = true -> Item_eqb x z = true.
Proof.
  destruct x, y, z; simpl; try discriminate.
  - intros H1 H2. apply String.eqb_eq in H1, H2. subst. apply String.eqb_refl.
  - intros H1 H2. apply Nat.eqb_eq in H1, H2. subst. apply Nat.eqb_refl.
Qed.

Lemma Item_eqb_sym (x y : Item) : Item_eqb x y = Item_eqb y x.
Proof.
  destruct x, y; simpl; try reflexivity; [apply String.eqb_sym|apply Nat.eqb_sym].
Qed.

Lemma setOf_snoc (l : list Item) (x : Item) :
  setOf (l ++ [x])
  = setOf l ++ (if existsb (Item_eqb x) (setOf l) then [] else [x]).
Proof.
  unfold setOf. rewrite fold_left_app. simpl. unfold addToSet.
  destruct (existsb (Item_eqb x) (fold_left _ l [])); [now rewrite app_nil_r|reflexivity].
Qed.

Lemma existsb_setOf (l : list Item) (x : Item) :
  existsb (Item_eqb x) (setOf l) = existsb (Item_eqb x) l.
Proof.
  induction l as [|y l IH] using rev_ind; [reflexivity|].
  rewrite setOf_snoc, !existsb_app, IH. simpl. rewrite orb_false_r.
  destruct (existsb (Item_eqb y) (setOf l)) eqn:Hy; simpl; [|now rewrite orb_false_r].
  rewrite orb_false_r.
  destruct (Item_eqb x y) eqn:Hxy; [|now rewrite orb_false_r].
  rewrite orb_true_r. rewrite <- IH.
  apply existsb_exists in Hy. destruct Hy as [z [Hz Hyz]].
  apply existsb_exists. exists z. split; [exact Hz|].
  now apply (Item_eqb_trans x y z).
Qed.

Lemma existsb_IString (l : list Item) (s : string) :
  existsb (Item_eqb (IString s)) l = true <-> IString s ∈ l.
Proof.
  rewrite existsb_exists. split.
  - intros [y [Hy He]]. destruct y as [t|]; simpl in He; [|discriminate].
    apply String.eqb_eq in He. subst. now apply list_elem_of_In.
  - intros Hin. exists (IString s). split; [now apply list_elem_of_In|].
    apply Item_eqb_refl.
Qed.

Lemma IString_setOf (l : list Item) (s : string) :
  IString s ∈ setOf l <-> IString s ∈ l.
Proof. now rewrite <- !existsb_IString, existsb_setOf. Qed.

Lemma plainSelectors_app (a b : list AdByProviderSelector) :
  plainSelectors (a ++ b) = plainSelectors a ++ plainSelectors b.
Proof. apply omap_app. Qed.

Lemma plainSelectors_elem (l : list Item) (s : string) :
  s ∈ plainSelectors (map toSelector l) <-> IString s ∈ l.
Proof.
  unfold plainSelectors. rewrite list_elem_of_omap. split.
  - intros [x [Hx Hs]]. apply list_elem_of_fmap in Hx.
    destruct Hx as [y [-> Hy]]. destruct y; simpl in Hs; [|discriminate].
    now injection Hs as ->.
  - intros Hin. exists (Plain s). split; [|reflexivity].
    apply list_elem_of_fmap. now exists (IString s).
Qed.

Lemma setOf_plain_NoDup (l : list Item) :
  NoDup (plainSelectors (map toSelector (setOf l))).
Proof.
  induction l as [|x l IH] using rev_ind; [constructor|].
  rewrite setOf_snoc, map_app, plainSelectors_app.
  destruct (existsb (Item_eqb x) (setOf l)) eqn:Hx; simpl.
  - now rewrite app_nil_r.
  - destruct x as [s|i sel d]; simpl; [|now rewrite app_nil_r].
    apply NoDup_app. split; [exact IH|]. split; [|apply NoDup_singleton].
    intros t Ht Hts. apply list_elem_of_singleton in Hts. subst t.
    apply plainSelectors_elem, existsb_IString in Ht. congruence.
Qed.

Lemma refs_app (a b : list Item) : refs (a ++ b) = refs a ++ refs b.
Proof. apply omap_app. Qed.

Lemma existsb_IObject (l : list Item) (i : nat) (sel : string) (d : Z) :
  i ∉ refs l -> existsb (Item_eqb (IObject i sel d)) l = false.
Proof.
  intros Hi. destruct (existsb _ l) eqn:He; [|reflexivity].
  apply existsb_exists in He. destruct He as [y [Hy He]].
  destruct y as [|j sel' d']; simpl in He; [discriminate|].
  apply Nat.eqb_eq in He. subst j. exfalso. apply Hi.
  unfold refs. apply list_elem_of_omap. exists (IObject i sel' d').
  split; [now apply list_elem_of_In|reflexivity].
Qed.

Lemma depthSelectors_app (a b : list AdByProviderSelector) :
  depthSelectors (a ++ b) = depthSelectors a ++ depthSelectors b.
Proof. apply omap_app. Qed.

Lemma setOf_depth (l : list Item) :
  NoDup (refs l) ->
  depthSelectors (map toSelector (setOf l)) = depthSelectors (map toSelector l).
Proof.
  induction l as [|x l IH] using rev_ind; [reflexivity|].
  rewrite refs_app. intros Hnd. apply NoDup_app in Hnd.
  destruct Hnd as [Hl [Hdisj _]].
  rewrite setOf_snoc, !map_app, !depthSelectors_app, (IH Hl). f_equal.
  destruct x as [s|i sel d].
  - destruct (existsb _ (setOf l)); reflexivity.
  - rewrite existsb_setOf, existsb_IObject; [reflexivity|].
    intros Hi. apply (Hdisj i Hi). simpl. now left.
Qed.

Lemma flatItems_snoc (pre : list AdProviderSelectorsRule) (r : AdProviderSelectorsRule) :
  flatItems (pre ++ [r]) = flatItems pre ++ mapRule (length pre) r.
Proof.
  unfold flatItems. rewrite imap_app, concat_app. simpl.
  now rewrite app_nil_r, Nat.add_0_r.
Qed.

Lemma refs_strings (l : list string) : refs (map IString l) = [].
Proof. induction l as [|s l IH]; [reflexivity|exact IH]. Qed.

Lemma depth_strings (l : list string) :
  depthSelectors (map toSelector (map IString l)) = [].
Proof. induction l as [|s l IH]; [reflexivity|exact IH]. Qed.

Lemma refs_flatItems (filtered : list AdProviderSelectorsRule) :
  Forall (fun i => (i < length filtered)%nat) (refs (flatItems filtered))
  /\ NoDup (refs (flatItems filtered)).
Proof.
  induction filtered as [|r pre [IHb IHn]] using rev_ind; [split; constructor|].
  rewrite flatItems_snoc, refs_app, mapRule_positiveDepth, length_app. simpl.
  assert (Hb : Forall (fun i => (i < length pre + 1)%nat) (refs (flatItems pre)))
    by (eapply Forall_impl; [exact IHb|]; simpl; intros; lia).
  destruct (positiveDepth r) as [d|].
  - split.
    + apply Forall_app. split; [exact Hb|]. repeat constructor. lia.
    + apply NoDup_app. split; [exact IHn|]. split; [|apply NoDup_singleton].
      intros i Hi Hi'. apply list_elem_of_singleton in Hi'. subst i.
      rewrite Forall_forall in IHb. specialize (IHb _ Hi). lia.
  - rewrite refs_strings, app_nil_r. now split.
Qed.

Lemma depth_flatItems (filtered : list AdProviderSelectorsRule) :
  depthSelectors (map toSelector (flatItems filtered))
  = omap (fun r => match positiveDepth r with
                   | Some d => Some (join (selectors r), d)
                   | None => None
                   end) filtered.
Proof.
  induction filtered as [|r pre IH] using rev_ind; [reflexivity|].
  rewrite flatItems_snoc, map_app, depthSelectors_app, omap_app, IH. f_equal.
  rewrite mapRule_positiveDepth. simpl.
  destruct (positiveDepth r); [reflexivity|apply depth_strings].
Qed.

Lemma IString_flatItems (filtered : list AdProviderSelectorsRule) (s : string) :
  IString s ∈ flatItems filtered
  <-> exists r, r ∈ filtered /\ positiveDepth r = None /\ s ∈ selectors r.
Proof.
  induction filtered as [|r pre IH] using rev_ind.
  - split; [intros H; now apply elem_of_nil in H|].
    intros [r [H _]]. now apply elem_of_nil in H.
  - rewrite flatItems_snoc, elem_of_app, IH, mapRule_positiveDepth. split.
    + intros [[r' [Hr' H]]|Hin].
      * exists r'. split; [apply elem_of_app; now left|exact H].
      * destruct (positiveDepth r) eqn:Hd.
        -- apply list_elem_of_singleton in Hin. discriminate.
        -- apply list_elem_of_fmap in Hin. destruct Hin as [t [Ht Hin]].
           injection Ht as <-. exists r.
           split; [apply elem_of_app; right; now left|now split].
    + intros [r' [Hr' [Hd Hs]]]. apply elem_of_app in Hr'.
      destruct Hr' as [Hr'|Hr'].
      * left. now exists r'.
      * apply list_elem_of_singleton in Hr'. subst r'. right. rewrite Hd.
        apply list_elem_of_fmap. now exists s.
Qed.

Variable filterRules :
  list AdProviderSelectorsRule -> option string -> option bool ->
  list AdProviderSelectorsRule.

(** X14: in the answer of [transformAdProviderSelectorsRules] a selector
    given as a string is listed once, however many of the rules that pass
    the filter give it, and the strings listed are the selectors of the
    passing rules that have no positive [parentDepth]. *)
Theorem transform_lists_each_string_once
        (rules : list AdProviderSelectorsRule)
        (extVersionQuery isMisesBrowserQuery : option string) :
  let answer :=
    transformAdProviderSelectorsRules filterRules rules extVersionQuery
                                      isMisesBrowserQuery in
  let isMises :=
    match isMisesBrowserQuery with
    | Some q => String.eqb q "true"
    | None => false
    end in
  NoDup (plainSelectors answer)
  /\ forall s,
      Plain s ∈ answer
      <-> exists r, r ∈ filterRules rules extVersionQuery (Some isMises)
                    /\ positiveDepth r = None /\ s ∈ selectors r.
Proof.
  intros answer isMises. unfold answer, transformAdProviderSelectorsRules.
  fold isMises. split; [apply setOf_plain_NoDup|].
  intros s. rewrite <- IString_flatItems, <- IString_setOf. split.
  - intros Hin. apply list_elem_of_fmap in Hin. destruct Hin as [y [Hy Hin]].
    destruct y; [|discriminate]. now injection Hy as ->.
  - intros Hin. apply list_elem_of_fmap. now exists (IString s).
Qed.

(** X15: every passing rule with a positive [parentDepth] gives one object
    of its own, [{selector: selectors.join(', '), parentDepth}], in the
    order of the rules; the Set never merges two of them, not even when
    they are equal field by field. *)
Theorem transform_gives_one_object_per_rule
        (rules : list AdProviderSelectorsRule)
        (extVersionQuery isMisesBrowserQuery : option string) :
  let isMises :=
    match isMisesBrowserQuery with
    | Some q => String.eqb q "true"
    | None => false
    end in
  depthSelectors (transformAdProviderSelectorsRules filterRules rules
                    extVersionQuery isMisesBrowserQuery)
  = omap (fun r => match positiveDepth r with
                   | Some d => Some (join (selectors r), d)
                   | None => None
                   end)
         (filterRules rules extVersionQuery (Some isMises)).
Proof.
  intros isMises. unfold transformAdProviderSelectorsRules. fold isMises.
  rewrite setOf_depth by apply refs_flatItems. apply depth_flatItems.
Qed.
End AdProvidersFacts.

Lemma transform_lists_each_string_once_witness :
  NoDup (AdProvidersAnswer.plainSelectors
           (AdProviders.transformAdProviderSelectorsRules
              MoreSamples.passAll
              [MoreSamples.ruleBanner; MoreSamples.ruleFrame; MoreSamples.ruleDeep]
              None None))
  /\ AdProviders.Plain "iframe.ad"
     ∈ AdProviders.transformAdProviderSelectorsRules
         MoreSamples.passAll
         [MoreSamples.ruleBanner; MoreSamples.ruleFrame; MoreSamples.ruleDeep]
         None None.
Proof.
  pose proof (transform_lists_each_string_once
                MoreSamples.passAll
                [MoreSamples.ruleBanner; MoreSamples.ruleFrame; MoreSamples.ruleDeep]
                None None) as [Hnd Hin].
  split; [exact Hnd|].
  apply (proj2 (Hin "iframe.ad")). exists MoreSamples.ruleFrame.
  split; [apply list_elem_of_further, list_elem_of_here|].
  split; [reflexivity|apply list_elem_of_here].
Defined.
